(** * fal-local: the local image store (src/lib/image-storage.ts)

    A shallow embedding of the [ImageStorage] class and of the guard that
    [ImageMigration] puts in front of it, together with the properties of
    the media cache that the specification states.

    Conventions of the embedding.
    - The class is written against four platform services: [fetch],
      [FileReader], [localStorage] and the clock.  They are gathered in an
      environment [Env] of oracles; the mutable part (the value stored under
      the key ['fal_local_images'], and counters of the calls made so far)
      is the [World].  An operation is a function from worlds to a result
      and a new world; a JavaScript exception is the result [Raise], and
      [try] is [try ... catch].
    - [async] functions are run to completion one after the other: an
      [await] is a sequence point, and every awaited promise settles (a
      fetch that never answers is outside the model).
    - The declared TypeScript types are taken at their word: a
      [Record<string, LocalImageData>] is a finite list of own properties in
      enumeration order (members inherited from [Object.prototype] are not
      looked up), a [LocalImageData] has the five declared fields, [size] is
      an integral number of bytes and [downloadedAt] is the ISO rendering
      of a time value (kept as that time value, in milliseconds).
    - A text under the storage key is either the serialisation of such a
      map, which [JSON.parse] reads back as the map, or a text that
      [JSON.parse] rejects; strings are kept as their UTF-8 bytes.
    - Numbers that the code keeps integral are in [Z] (they are exact below
      [2^53]); the fractional computations ([maxSize * 0.8], [toFixed]) go
      through [F64], correctly rounded binary64 arithmetic on finite
      values. *)

From Stdlib Require Import ZArith NArith Nnat QArith Qround Qabs Lqa Lia.
From Stdlib Require Import List String Ascii Bool DecimalString.
From Stdlib Require Import Permutation Sorted.
Import ListNotations.

Local Open Scope Z_scope.

(* ===================================================================== *)
(** ** Binary64 arithmetic on finite values *)
(* ===================================================================== *)

Module F64.

(** A finite double is kept as the rational number it denotes.  Every
    operation computes the exact result and rounds it to the nearest
    number with a 53 bit significand, ties to even.  Exponent range is
    not modelled: byte counts and percentages stay far inside it. *)

Definition round_half_even (n d : Z) : Z :=
  let q := n / d in
  match (2 * (n mod d) ?= d) with
  | Lt => q
  | Gt => q + 1
  | Eq => if Z.even q then q else q + 1
  end.

(** [n / (d * 2^e)] as a fraction of integers. *)
Definition scale (n d e : Z) : Z * Z :=
  if 0 <=? e then (n, d * 2 ^ e) else (n * 2 ^ (- e), d).

Definition pow2 (e : Z) : Q :=
  if 0 <=? e then inject_Z (2 ^ e) else 1 # Z.to_pos (2 ^ (- e)).

(** Exponent of the last place of [n / d], for [0 < n] and [0 < d]:
    the [e] with [2^52 <= n / (d * 2^e) < 2^53]. *)
Definition ulp_exponent (n d : Z) : Z :=
  let e := Z.log2 n - Z.log2 d - 52 in
  let '(N, D) := scale n d e in
  if 2 ^ 52 * D <=? N then e else e - 1.

Definition fl (x : Q) : Q :=
  let n := Qnum x in
  let d := Zpos (Qden x) in
  if n =? 0 then 0%Q
  else
    let e := ulp_exponent (Z.abs n) d in
    let '(N, D) := scale (Z.abs n) d e in
    Qred (inject_Z (Z.sgn n * round_half_even N D) * pow2 e).

Definition of_Z (z : Z) : Q := fl (inject_Z z).
Definition mul (x y : Q) : Q := fl (x * y).
Definition div (x y : Q) : Q := fl (x / y).
Definition sub (x y : Q) : Q := fl (x - y).

(** A decimal literal of the source text, such as [0.8]. *)
Definition literal (units : Z) (decimals : nat) : Q :=
  fl (units # Pos.of_nat (10 ^ decimals)).

(** [x.toFixed(f)]: the integer [n] for which [n / 10^f] is closest to
    [x], the larger one when two are equally close; the digits of the
    resulting string are those of [n]. *)
Record fixed := { places : nat; units : Z }.

Definition toFixed (f : nat) (x : Q) : fixed :=
  let s := inject_Z (10 ^ Z.of_nat f) in
  {| places := f;
     units := if Qle_bool 0 x then Qfloor (x * s + (1 # 2))
              else - Qfloor ((- x) * s + (1 # 2)) |}.

Definition parseFloat (s : fixed) : Q :=
  fl (units s # Pos.of_nat (10 ^ places s)).

End F64.


(* ===================================================================== *)
(** ** The JavaScript runtime, as far as the store uses it *)
(* ===================================================================== *)

Module JS.

Local Open Scope string_scope.

(** [s.startsWith(p)] *)
Definition startsWith (s p : string) : bool := String.prefix p s.

(** A string is falsy exactly when it is empty. *)
Definition truthy (s : string) : bool :=
  match s with EmptyString => false | String _ _ => true end.

(** Strings are kept as their UTF-8 bytes; [new Blob([s]).size]. *)
Definition byteLength (s : string) : Z := Z.of_nat (String.length s).

(** *** Objects used as maps

    An object is the list of its own properties in enumeration order:
    keys that are array indices first, in ascending numeric order, then
    the other keys in the order of their creation. *)

Definition digit_value (c : ascii) : option N :=
  let n := N_of_ascii c in
  if ((48 <=? n) && (n <=? 57))%N then Some (n - 48)%N else None.

Fixpoint digits_value (acc : N) (s : string) : option N :=
  match s with
  | EmptyString => Some acc
  | String c r =>
      match digit_value c with
      | Some d => digits_value (10 * acc + d)%N r
      | None => None
      end
  end.

(** The canonical numeric strings below [2^32 - 1]. *)
Definition array_index (k : string) : option N :=
  match k with
  | EmptyString => None
  | String c r =>
      if (c =? "0")%char && truthy r then None
      else match digits_value 0 k with
           | Some v => if (v <? 4294967295)%N then Some v else None
           | None => None
           end
  end.

Section Objects.
Context {V : Type}.

Definition object := list (string * V).

Definition keys (o : object) : list string := map fst o.
Definition values (o : object) : list V := map snd o.
Definition entries (o : object) : list (string * V) := o.

(** [o[k]] on an own property *)
Fixpoint get_prop (k : string) (o : object) : option V :=
  match o with
  | [] => None
  | (k', v) :: r => if k =? k' then Some v else get_prop k r
  end.

(** [delete o[k]] *)
Definition delete_prop (k : string) (o : object) : object :=
  filter (fun kv => negb (k =? fst kv)) o.

Fixpoint insert_index (i : N) (k : string) (v : V) (o : object) : object :=
  match o with
  | [] => [(k, v)]
  | (k', v') :: r =>
      match array_index k' with
      | Some j => if (j <? i)%N then (k', v') :: insert_index i k v r
                  else (k, v) :: o
      | None => (k, v) :: o
      end
  end.

(** [o[k] = v]: an existing property keeps its place, a new one is
    created at the place its key has in the enumeration order. *)
Definition set_prop (k : string) (v : V) (o : object) : object :=
  match get_prop k o with
  | Some _ => map (fun kv => if k =? fst kv then (k, v) else kv) o
  | None =>
      match array_index k with
      | Some i => insert_index i k v o
      | None => (o ++ [(k, v)])%list
      end
  end.
End Objects.
Arguments object : clear implicits.

(** *** [Array.prototype.sort]

    The sort is stable; [compareFn a b < 0] places [a] before [b].
    Insertion from the right end of the array keeps equal elements in
    their original order. *)
Section Sort.
Context {A : Type} (compareFn : A -> A -> Z).

Fixpoint sort_insert (x : A) (l : list A) : list A :=
  match l with
  | [] => [x]
  | y :: r => if (compareFn y x <? 0)%Z then y :: sort_insert x r else x :: l
  end.

Fixpoint sort (l : list A) : list A :=
  match l with
  | [] => []
  | x :: r => sort_insert x (sort r)
  end.
End Sort.

(** *** [Date.prototype.toISOString] *)

Definition digit (n : Z) : ascii := ascii_of_N (Z.to_N (48 + n mod 10)).

(** [n] in decimal on exactly [width] digits. *)
Fixpoint pad (width : nat) (n : Z) : string :=
  match width with
  | O => EmptyString
  | S w => pad w (n / 10) ++ String (digit n) EmptyString
  end.

(** Proleptic Gregorian date of a day number counted from 1970-01-01. *)
Definition civil_from_days (days : Z) : Z * Z * Z :=
  let z := days + 719468 in
  let era := z / 146097 in
  let doe := z - era * 146097 in
  let yoe := (doe - doe / 1460 + doe / 36524 - doe / 146096) / 365 in
  let doy := doe - (365 * yoe + yoe / 4 - yoe / 100) in
  let mp := (5 * doy + 2) / 153 in
  let d := doy - (153 * mp + 2) / 5 + 1 in
  let m := if (mp <? 10)%Z then mp + 3 else mp - 9 in
  let y := yoe + era * 400 in
  (if (m <=? 2)%Z then y + 1 else y, m, d).

Definition toISOString (t : Z) : string :=
  let ms := t mod 86400000 in
  let '(y, m, d) := civil_from_days (t / 86400000) in
  let year :=
    if ((0 <=? y) && (y <=? 9999))%Z then pad 4 y
    else (if (y <? 0)%Z then "-" else "+") ++ pad 6 (Z.abs y) in
  year ++ "-" ++ pad 2 m ++ "-" ++ pad 2 d ++ "T"
    ++ pad 2 (ms / 3600000) ++ ":" ++ pad 2 (ms / 60000 mod 60) ++ ":"
    ++ pad 2 (ms / 1000 mod 60) ++ "." ++ pad 3 (ms mod 1000) ++ "Z".

(** *** [JSON.stringify] of strings and integers *)

Definition dquote : ascii := "034"%char.

Definition hex_digit (n : N) : ascii :=
  ascii_of_N (if (n <? 10)%N then 48 + n else 87 + n)%N.

Definition escape_char (c : ascii) : string :=
  let n := N_of_ascii c in
  if (n =? 8)%N then "\b"
  else if (n =? 9)%N then "\t"
  else if (n =? 10)%N then "\n"
  else if (n =? 12)%N then "\f"
  else if (n =? 13)%N then "\r"
  else if (n =? 34)%N then String "\"%char (String dquote EmptyString)
  else if (n =? 92)%N then "\\"
  else if (n <? 32)%N then
    "\u00" ++ String (hex_digit (n / 16)) (String (hex_digit (n mod 16)) EmptyString)
  else String c EmptyString.

Fixpoint escape (s : string) : string :=
  match s with
  | EmptyString => EmptyString
  | String c r => escape_char c ++ escape r
  end.

Definition quote (s : string) : string :=
  String dquote (escape s ++ String dquote EmptyString).

Definition number (z : Z) : string := NilZero.string_of_int (Z.to_int z).

Fixpoint join (sep : string) (l : list string) : string :=
  match l with
  | [] => EmptyString
  | [s] => s
  | s :: r => s ++ sep ++ join sep r
  end.

End JS.

(* ===================================================================== *)
(** ** Data model *)
(* ===================================================================== *)

(** [interface LocalImageData] *)
Record LocalImageData := {
  originalUrl : string;
  localDataUrl : string;
  contentType : string;
  size : Z;
  downloadedAt : Z
}.

(** [Record<string, LocalImageData>] *)
Abbreviation Images := (JS.object LocalImageData).

Definition stringify_image (img : LocalImageData) : string :=
  ("{" ++ JS.quote "originalUrl" ++ ":" ++ JS.quote (originalUrl img)
   ++ "," ++ JS.quote "localDataUrl" ++ ":" ++ JS.quote (localDataUrl img)
   ++ "," ++ JS.quote "contentType" ++ ":" ++ JS.quote (contentType img)
   ++ "," ++ JS.quote "size" ++ ":" ++ JS.number (size img)
   ++ "," ++ JS.quote "downloadedAt" ++ ":"
   ++ JS.quote (JS.toISOString (downloadedAt img)) ++ "}")%string.

Definition stringify_entry (kv : string * LocalImageData) : string :=
  (JS.quote (fst kv) ++ ":" ++ stringify_image (snd kv))%string.

(** [JSON.stringify(storedImages)] *)
Definition JSON_stringify (storedImages : Images) : string :=
  ("{" ++ JS.join "," (map stringify_entry (JS.entries storedImages)) ++ "}")%string.

(** The text held under a [localStorage] key: either the serialisation of
    a map of images, which [JSON.parse] reads back as that map, or a text
    that [JSON.parse] rejects. *)
Inductive Text :=
| Stringified (storedImages : Images)
| Unparsable (raw : string).

Definition text_string (t : Text) : string :=
  match t with
  | Stringified storedImages => JSON_stringify storedImages
  | Unparsable raw => raw
  end.

(* ===================================================================== *)
(** ** Platform services *)
(* ===================================================================== *)

Record Blob := { blob_type : string; blob_bytes : string }.

Definition blob_size (b : Blob) : Z := JS.byteLength (blob_bytes b).

Record Response := {
  ok : bool;
  body : option Blob      (* [None]: reading the body fails *)
}.

(** [fetch]: the promise is rejected, or resolved with a response. *)
Inductive FetchOutcome := Rejected | Responded (r : Response).

(** [FileReader]: [onerror], or [onload] with [reader.result]. *)
Inductive ReadOutcome := ReadFailed | Loaded (dataUrl : string).

(** [setItem]: it stores the value, throws an error whose name is
    ['QuotaExceededError'], or throws another error. *)
Inductive WriteOutcome := Written | QuotaExceeded | Refused.

(** What the surroundings answer: the [n]-th call of [fetch], the
    [FileReader] on a blob, the [n]-th call of [localStorage.setItem] and
    the [n]-th reading of the clock. *)
Record Env := {
  network : nat -> string -> FetchOutcome;
  fileReader : Blob -> ReadOutcome;
  medium : nat -> Text -> WriteOutcome;
  clock : nat -> Z
}.

Record World := {
  item : option Text;       (* localStorage['fal_local_images'] *)
  fetched : list string;    (* arguments of the calls of [fetch], latest first *)
  reads : nat;               (* calls of [readAsDataURL] *)
  writes : nat;              (* calls of [setItem] *)
  ticks : nat                (* readings of the clock *)
}.

Inductive Error :=
| QuotaExceededError | StorageError | SyntaxError
| NetworkError | HttpError | ReadError.

Inductive Result (A : Type) :=
| Val (a : A)
| Raise (e : Error).
Arguments Val {A} a.
Arguments Raise {A} e.

Definition M (A : Type) : Type := World -> Result A * World.

Definition ret {A} (a : A) : M A := fun w => (Val a, w).

Definition raise {A} (e : Error) : M A := fun w => (Raise e, w).

Definition bind {A B} (m : M A) (k : A -> M B) : M B :=
  fun w =>
    match m w with
    | (Val a, w') => k a w'
    | (Raise e, w') => (Raise e, w')
    end.

(** [try { m } catch (error) { handler error }] *)
Definition try {A} (m : M A) (handler : Error -> M A) : M A :=
  fun w =>
    match m w with
    | (Val a, w') => (Val a, w')
    | (Raise e, w') => handler e w'
    end.

Declare Scope js_scope.
Delimit Scope js_scope with js.
Notation "x <- m ;; k" := (bind m (fun x => k))
  (at level 100, m at next level, right associativity) : js_scope.
Notation "m ;; k" := (bind m (fun _ => k))
  (at level 100, right associativity) : js_scope.
Local Open Scope js_scope.

Definition with_item (i : option Text) (w : World) : World :=
  {| item := i; fetched := fetched w; reads := reads w;
     writes := writes w; ticks := ticks w |}.

Definition count_fetch (url : string) (w : World) : World :=
  {| item := item w; fetched := url :: fetched w; reads := reads w;
     writes := writes w; ticks := ticks w |}.

Definition count_read (w : World) : World :=
  {| item := item w; fetched := fetched w; reads := S (reads w);
     writes := writes w; ticks := ticks w |}.

Definition count_write (w : World) : World :=
  {| item := item w; fetched := fetched w; reads := reads w;
     writes := S (writes w); ticks := ticks w |}.

Definition count_tick (w : World) : World :=
  {| item := item w; fetched := fetched w; reads := reads w;
     writes := writes w; ticks := S (ticks w) |}.

Definition localStorage_getItem : M (option Text) :=
  fun w => (Val (item w), w).

Definition localStorage_setItem (env : Env) (value : Text) : M unit :=
  fun w =>
    match medium env (writes w) value with
    | Written => (Val tt, with_item (Some value) (count_write w))
    | QuotaExceeded => (Raise QuotaExceededError, count_write w)
    | Refused => (Raise StorageError, count_write w)
    end.

Definition localStorage_removeItem : M unit :=
  fun w => (Val tt, with_item None w).

(** [new Date().getTime()] *)
Definition Date_now (env : Env) : M Z :=
  fun w => (Val (clock env (ticks w)), count_tick w).

Definition fetch (env : Env) (url : string) : M Response :=
  fun w =>
    match network env (List.length (fetched w)) url with
    | Rejected => (Raise NetworkError, count_fetch url w)
    | Responded r => (Val r, count_fetch url w)
    end.

(** [response.blob()] *)
Definition Response_blob (r : Response) : M Blob :=
  match body r with
  | Some b => ret b
  | None => raise NetworkError
  end.

(** The promise around [reader.readAsDataURL(blob)]: [onload] resolves it
    with [reader.result], [onerror] rejects it. *)
Definition FileReader_readAsDataURL (env : Env) (blob : Blob) : M string :=
  fun w =>
    match fileReader env blob with
    | Loaded dataUrl => (Val dataUrl, count_read w)
    | ReadFailed => (Raise ReadError, count_read w)
    end.

(** [stored ? ... : ...] on the result of [getItem] *)
Definition stored_truthy (stored : option Text) : bool :=
  match stored with
  | None => false
  | Some t => JS.truthy (text_string t)
  end.

Definition JSON_parse (t : Text) : M Images :=
  match t with
  | Stringified storedImages => ret storedImages
  | Unparsable _ => raise SyntaxError
  end.

(* ===================================================================== *)
(** ** [class ImageStorage] *)
(* ===================================================================== *)

Module ImageStorage.

Definition STORAGE_KEY : string := "fal_local_images".
Definition MAX_STORAGE_SIZE : Z := 50 * 1024 * 1024.

(** [a > b] between an integral and a fractional number *)
Definition gt (a : Z) (b : Q) : bool := negb (Qle_bool (inject_Z a) b).
(** [a >= b] *)
Definition ge (a : Z) (b : Q) : bool := Qle_bool b (inject_Z a).

Definition getStoredImages : M Images :=
  try (stored <- localStorage_getItem ;;
       match stored with
       | Some text => if stored_truthy stored then JSON_parse text else ret []
       | None => ret []
       end)
      (fun _ => ret []).

Definition getStoredImage (originalUrl : string) : M (option LocalImageData) :=
  try (storedImages <- getStoredImages ;;
       ret (JS.get_prop originalUrl storedImages))
      (fun _ => ret None).

Definition getCurrentStorageSize : M Z :=
  try (storedImages <- getStoredImages ;;
       ret (fold_left (fun total img => total + size img)
                      (JS.values storedImages) 0))
      (fun _ => ret 0).

Definition getActualStorageSize : M Z :=
  try (stored <- localStorage_getItem ;;
       match stored with
       | Some text =>
           if stored_truthy stored then ret (JS.byteLength (text_string text))
           else ret 0
       | None => ret 0
       end)
      (fun _ => ret 0).

(** The part of [downloadImageAsDataUrl] inside [try]: it ends with
    [null], with the promise that wraps the [FileReader], or in [catch]. *)
Definition fetchBlob (env : Env) (imageUrl : string)
  : M (option (Blob * string * Z)) :=
  try (response <- fetch env imageUrl ;;
       if negb (ok response) then raise HttpError
       else
         blob <- Response_blob response ;;
         let contentType :=
           if JS.truthy (blob_type blob) then blob_type blob
           else "image/png"%string in
         let size := blob_size blob in
         currentSize <- getCurrentStorageSize ;;
         if currentSize + size >? MAX_STORAGE_SIZE then ret None
         else ret (Some (blob, contentType, size)))
      (fun _ => ret None).

(** The promise is returned, not awaited, inside [try]: when the reader
    fails, its rejection is the rejection of [downloadImageAsDataUrl]. *)
Definition downloadImageAsDataUrl (env : Env) (imageUrl : string)
  : M (option LocalImageData) :=
  pending <- fetchBlob env imageUrl ;;
  match pending with
  | None => ret None
  | Some (blob, contentType, size) =>
      dataUrl <- FileReader_readAsDataURL env blob ;;
      now <- Date_now env ;;
      ret (Some {| originalUrl := imageUrl;
                   localDataUrl := dataUrl;
                   contentType := contentType;
                   size := size;
                   downloadedAt := now |})
  end.

(** The [for] loop of [cleanupOldImages] over [Object.entries]. *)
Definition ageLoop (now maxAge : Z) (imageEntries : list (string * LocalImageData))
           (storedImages : Images) (hasChanges : bool) : Images * bool :=
  fold_left
    (fun '(storedImages, hasChanges) '(url, imageData) =>
       if now - downloadedAt imageData >? maxAge
       then (JS.delete_prop url storedImages, true)
       else (storedImages, hasChanges))
    imageEntries (storedImages, hasChanges).

Definition cleanupOldImages (env : Env) (maxAge : Z) : M unit :=
  try (storedImages <- getStoredImages ;;
       now <- Date_now env ;;
       let '(storedImages, hasChanges) :=
         ageLoop now maxAge (JS.entries storedImages) storedImages false in
       if hasChanges : bool
       then localStorage_setItem env (Stringified storedImages)
       else ret tt)
      (fun _ => ret tt).

(** The comparison function of [freeUpSpace]: larger first, then older
    first. *)
Definition bySizeThenAge (a b : string * LocalImageData) : Z :=
  let sizeDiff := size (snd b) - size (snd a) in
  if negb (sizeDiff =? 0) then sizeDiff
  else downloadedAt (snd a) - downloadedAt (snd b).

(** The [for] loop of [freeUpSpace], with its [break]. *)
Fixpoint freeLoop (targetBytes : Q) (imageEntries : list (string * LocalImageData))
         (storedImages : Images) (freedBytes : Z) (hasChanges : bool)
  : Images * Z * bool :=
  match imageEntries with
  | [] => (storedImages, freedBytes, hasChanges)
  | (url, imageData) :: rest =>
      if ge freedBytes targetBytes then (storedImages, freedBytes, hasChanges)
      else freeLoop targetBytes rest (JS.delete_prop url storedImages)
                    (freedBytes + size imageData) true
  end.

Definition freeUpSpace (env : Env) (targetBytes : Q) : M unit :=
  try (storedImages <- getStoredImages ;;
       let imageEntries := JS.sort bySizeThenAge (JS.entries storedImages) in
       let '(storedImages, freedBytes, hasChanges) :=
         freeLoop targetBytes imageEntries storedImages 0 false in
       if hasChanges : bool
       then localStorage_setItem env (Stringified storedImages)
       else ret tt)
      (fun _ => ret tt).

(** The three lines each attempt of [storeImage] consists of. *)
Definition writeWith (env : Env) (imageData : LocalImageData) : M bool :=
  storedImages <- getStoredImages ;;
  let storedImages := JS.set_prop (originalUrl imageData) imageData storedImages in
  localStorage_setItem env (Stringified storedImages) ;;
  ret true.

Definition storeImage (env : Env) (imageData : LocalImageData) : M bool :=
  try (writeWith env imageData)
      (fun error =>
         match error with
         | QuotaExceededError =>
             cleanupOldImages env (3 * 24 * 60 * 60 * 1000) ;;
             try (writeWith env imageData)
                 (fun _ =>
                    let targetFreeSpace :=
                      Z.max (size imageData * 2) (10 * 1024 * 1024) in
                    freeUpSpace env (inject_Z targetFreeSpace) ;;
                    try (writeWith env imageData)
                        (fun _ =>
                           cleanupOldImages env (24 * 60 * 60 * 1000) ;;
                           try (writeWith env imageData)
                               (fun _ => ret false)))
         | _ => ret false
         end).

Definition performMaintenanceCleanup (env : Env) : M unit :=
  try (actualSize <- getActualStorageSize ;;
       let maxSize := inject_Z MAX_STORAGE_SIZE in
       if gt actualSize (F64.mul maxSize (F64.literal 8 1)) then
         cleanupOldImages env (7 * 24 * 60 * 60 * 1000) ;;
         newSize <- getActualStorageSize ;;
         (if gt newSize (F64.mul maxSize (F64.literal 8 1))
          then cleanupOldImages env (3 * 24 * 60 * 60 * 1000)
          else ret tt) ;;
         finalSize <- getActualStorageSize ;;
         (if gt finalSize (F64.mul maxSize (F64.literal 8 1)) then
            let targetReduction :=
              F64.sub (inject_Z finalSize) (F64.mul maxSize (F64.literal 6 1)) in
            freeUpSpace env targetReduction
          else ret tt)
       else ret tt)
      (fun _ => ret tt).

Definition downloadAndStoreImage (env : Env) (imageUrl : string) : M string :=
  try (existingImage <- getStoredImage imageUrl ;;
       match existingImage with
       | Some existingImage => ret (localDataUrl existingImage)
       | None =>
           performMaintenanceCleanup env ;;
           imageData <- downloadImageAsDataUrl env imageUrl ;;
           match imageData with
           | Some imageData =>
               stored <- storeImage env imageData ;;
               if stored : bool then ret (localDataUrl imageData)
               else ret (localDataUrl imageData)
           | None => ret imageUrl
           end
       end)
      (fun _ => ret imageUrl).

Definition clearAllImages : M unit :=
  try localStorage_removeItem (fun _ => ret tt).

Record StorageStats := {
  imageCount : Z;
  totalSize : Z;
  totalSizeMB : Q;
  actualStorageSize : Z;
  actualStorageSizeMB : Q;
  storageUsagePercent : Q;
  oldestImage : option Z;
  newestImage : option Z
}.

Definition byDownloadedAt (a b : LocalImageData) : Z :=
  downloadedAt a - downloadedAt b.

Definition getStorageStats : M StorageStats :=
  try (storedImages <- getStoredImages ;;
       let images := JS.values storedImages in
       let totalSize := fold_left (fun total img => total + size img) images 0 in
       actualStorageSize <- getActualStorageSize ;;
       let sorted := JS.sort byDownloadedAt images in
       ret {| imageCount := Z.of_nat (List.length images);
              totalSize := totalSize;
              totalSizeMB :=
                F64.parseFloat
                  (F64.toFixed 2 (F64.div (inject_Z totalSize)
                                          (inject_Z (1024 * 1024))));
              actualStorageSize := actualStorageSize;
              actualStorageSizeMB :=
                F64.parseFloat
                  (F64.toFixed 2 (F64.div (inject_Z actualStorageSize)
                                          (inject_Z (1024 * 1024))));
              storageUsagePercent :=
                F64.parseFloat
                  (F64.toFixed 1
                     (F64.mul (F64.div (inject_Z actualStorageSize)
                                       (inject_Z MAX_STORAGE_SIZE))
                              (inject_Z 100)));
              oldestImage := option_map downloadedAt (hd_error sorted);
              newestImage := option_map downloadedAt (last (map Some sorted) None)
           |})
      (fun _ =>
         ret {| imageCount := 0; totalSize := 0; totalSizeMB := 0;
                actualStorageSize := 0; actualStorageSizeMB := 0;
                storageUsagePercent := 0;
                oldestImage := None; newestImage := None |}).

End ImageStorage.

(* ===================================================================== *)
(** ** [class ImageMigration]: the guard in front of the store *)
(* ===================================================================== *)

Module ImageMigration.

Definition isRemoteUrl (url : string) : bool :=
  JS.startsWith url "http://" || JS.startsWith url "https://".

(** An element of [generation.result.images]; [url] is absent or a
    string, the fields that are only copied are kept together. *)
Record Image := {
  url : option string;
  originalUrl : option string;
  others : string
}.

(** The function mapped over the images by [processGeneration]. *)
Definition processImage (env : Env) (image : Image) : M Image :=
  match url image with
  | Some u =>
      if negb (JS.truthy u) || negb (isRemoteUrl u) then ret image
      else
        localUrl <- ImageStorage.downloadAndStoreImage env u ;;
        ret {| url := Some localUrl; originalUrl := Some u;
               others := others image |}
  | None => ret image
  end.

End ImageMigration.

(* ===================================================================== *)
(** ** Observations of a world *)
(* ===================================================================== *)

(** The map a reader of the store obtains. *)
Definition images_of (i : option Text) : Images :=
  match i with
  | Some (Stringified storedImages) => storedImages
  | _ => []
  end.

(** The bytes the stored text occupies. *)
Definition bytes_of (i : option Text) : Z :=
  match i with
  | Some text => JS.byteLength (text_string text)
  | None => 0
  end.

(** The bytes the images account for: the sum of their [size]. *)
Definition logical_bytes (i : option Text) : Z :=
  fold_left (fun total img => total + size img) (JS.values (images_of i)) 0.

Definition cached (url : string) (w : World) : option LocalImageData :=
  JS.get_prop url (images_of (item w)).

Fixpoint distinct (l : list string) : bool :=
  match l with
  | [] => true
  | k :: r => negb (existsb (String.eqb k) r) && distinct r
  end.

(** The own keys of an object are pairwise different. *)
Definition well_formed (w : World) : Prop :=
  distinct (JS.keys (images_of (item w))) = true.

(** [sizeBytes] is the size of the binary payload, which its encoding in
    [localDataUrl] is not shorter than. *)
Definition genuine (w : World) : Prop :=
  Forall (fun kv => size (snd kv) <= JS.byteLength (localDataUrl (snd kv)))
         (images_of (item w)).

(** [maxSize * 0.8] and [maxSize * 0.6] *)
Definition threshold80 : Q :=
  F64.mul (inject_Z ImageStorage.MAX_STORAGE_SIZE) (F64.literal 8 1).
Definition threshold60 : Q :=
  F64.mul (inject_Z ImageStorage.MAX_STORAGE_SIZE) (F64.literal 6 1).

(** A medium that takes no write at all. *)
Definition refuses_all (env : Env) : Prop :=
  forall n text, medium env n text <> Written.


(** What an eviction may do to a world: no network or reader activity,
    and no entry appears. *)
Definition shrunk (w w' : World) : Prop :=
  fetched w' = fetched w /\ reads w' = reads w /\
  forall url, cached url w = None -> cached url w' = None.

Definition DAY : Z := 24 * 60 * 60 * 1000.

(* ===================================================================== *)
(** ** The operations in the words of the specification *)
(* ===================================================================== *)

Module Spec.

(** "Evict entries older than [maxAge]." *)
Definition olderThan (now maxAge : Z) (kv : string * LocalImageData) : bool :=
  now - downloadedAt (snd kv) >? maxAge.

Definition evictOlderThan (now maxAge : Z) (m : Images) : Images :=
  filter (fun kv => negb (olderThan now maxAge kv)) m.

(** "Sort entries by [sizeBytes] descending, breaking ties by
    [downloadedAt] ascending." *)
Definition evictsBefore (a b : string * LocalImageData) : Prop :=
  size (snd b) < size (snd a) \/
  (size (snd a) = size (snd b) /\ downloadedAt (snd a) <= downloadedAt (snd b)).

Definition sumSizes (l : list (string * LocalImageData)) : Z :=
  fold_right (fun kv total => size (snd kv) + total) 0 l.

(** "Remove entries in that order until the cumulative freed size meets
    or exceeds the target, or the map is exhausted." *)
Fixpoint minimalPrefix (target : Q) (order : list (string * LocalImageData))
         (freed : Z) : list (string * LocalImageData) :=
  match order with
  | [] => []
  | kv :: rest =>
      if Qle_bool target (inject_Z freed) then []
      else kv :: minimalPrefix target rest (freed + size (snd kv))
  end.

Definition victims (target : Q) (m : Images) : list (string * LocalImageData) :=
  minimalPrefix target (JS.sort ImageStorage.bySizeThenAge (JS.entries m)) 0.

Definition without (vs : list (string * LocalImageData)) (m : Images) : Images :=
  filter (fun kv => negb (existsb (String.eqb (fst kv)) (JS.keys vs))) m.

Definition evictLargest (target : Q) (m : Images) : Images :=
  without (victims target m) m.

(** Writing a map: the medium takes it or the store stays as it was. *)
Definition persist (env : Env) (m : Images) (w : World) : World :=
  match medium env (writes w) (Stringified m) with
  | Written => with_item (Some (Stringified m)) (count_write w)
  | _ => count_write w
  end.

(** An eviction reads the map and writes it back when it lost entries. *)
Definition evictStep (env : Env) (keep : Images -> Images) (w : World) : World :=
  let m := images_of (item w) in
  if (List.length (keep m) <? List.length m)%nat
  then persist env (keep m) w
  else w.

(** One attempt to write the map extended by the new entry. *)
Definition attempt (env : Env) (entry : LocalImageData) (w : World)
  : bool * World :=
  let m := JS.set_prop (originalUrl entry) entry (images_of (item w)) in
  match medium env (writes w) (Stringified m) with
  | Written => (true, with_item (Some (Stringified m)) (count_write w))
  | _ => (false, count_write w)
  end.


Definition budget : Z := 52428800.

(** Maintenance cleanup, thresholds in bytes. *)
Definition maintenance (env : Env) (w : World) : World :=
  if bytes_of (item w) <=? budget * 80 / 100 then w
  else
    let w1 := evictStep env (evictOlderThan (clock env (ticks w)) (7 * DAY))
                        (count_tick w) in
    let w2 :=
      if bytes_of (item w1) <=? budget * 80 / 100 then w1
      else evictStep env (evictOlderThan (clock env (ticks w1)) (3 * DAY))
                     (count_tick w1) in
    if bytes_of (item w2) <=? budget * 80 / 100 then w2
    else
      let target := inject_Z (bytes_of (item w2) - budget * 60 / 100) in
      evictStep env (evictLargest target) w2.

End Spec.

(** What the store does to a world outside of a successful [storeImage]:
    it reads the clock, has a write refused, or writes the map back
    without the entries of some keys. *)
Inductive step (env : Env) : World -> World -> Prop :=
| step_tick w : step env w (count_tick w)
| step_refused w : step env w (count_write w)
| step_evict vs w :
    step env w (Spec.persist env (Spec.without vs (images_of (item w))) w).

Inductive steps (env : Env) : World -> World -> Prop :=
| steps_done w : steps env w w
| steps_next w w1 w2 : step env w w1 -> steps env w1 w2 -> steps env w w2.

(* ===================================================================== *)
(** ** Sample worlds *)
(* ===================================================================== *)

Module Sample.

Definition url : string := "https://fal.media/files/a.png".
Definition png : Blob := {| blob_type := "image/png"; blob_bytes := "PNG" |}.
Definition dataUrl : string := "data:image/png;base64,UE5H".

Definition noon : Z := 1730628000000.     (* 2024-11-03T10:00:00.000Z *)

(** A store never written to. *)
Definition fresh : World :=
  {| item := None; fetched := []; reads := 0; writes := 0; ticks := 0 |}.


(** Every fetch answers 200 with [png]; the medium takes every write. *)
Definition online : Env :=
  {| network := fun _ _ => Responded {| ok := true; body := Some png |};
     fileReader := fun _ => Loaded dataUrl;
     medium := fun _ _ => Written;
     clock := fun _ => noon |}.

(** As [online], on a medium that is full for good. *)
Definition full : Env :=
  {| network := fun _ _ => Responded {| ok := true; body := Some png |};
     fileReader := fun _ => Loaded dataUrl;
     medium := fun _ _ => QuotaExceeded;
     clock := fun _ => noon |}.

Definition entry (u : string) (bytes age : Z) : string * LocalImageData :=
  (u, {| originalUrl := u; localDataUrl := dataUrl; contentType := "image/png";
         size := bytes; downloadedAt := noon - age |}).

(** A store read as the map [m]. *)
Definition holding (m : Images) : World :=
  {| item := Some (Stringified m); fetched := []; reads := 0; writes := 0;
     ticks := 0 |}.

(** A site-relative path, and an image that is already embedded. *)
Definition localPath : string := "/images/logo.png".

Definition embeddedImage : ImageMigration.Image :=
  {| ImageMigration.url := Some dataUrl;
     ImageMigration.originalUrl := None;
     ImageMigration.others := EmptyString |}.

Definition otherUrl : string := "https://fal.media/files/b.png".

(** The three entries of the largest-first example: A of 5 units, one day
    old; B of 3 units, five days old; C of 3 units, one day old. *)
Definition A := entry "https://fal.media/files/A.png" 5 DAY.
Definition B := entry "https://fal.media/files/B.png" 3 (5 * DAY).
Definition C := entry "https://fal.media/files/C.png" 3 DAY.


(** A store above 80% of the budget: one entry of 31,500,000 bytes, ten
    days old, whose embedded data is 42,000,000 characters long. *)
Definition filler (n : N) : string := N.iter n (String "A") EmptyString.

Definition hugeEntry : string * LocalImageData :=
  (otherUrl, {| originalUrl := otherUrl; localDataUrl := filler 42000000;
                contentType := "image/png"; size := 31500000;
                downloadedAt := noon - 10 * DAY |}).

Definition congested : World := holding [hugeEntry].


(** As [online], on a medium that throws another error than
    [QuotaExceededError] at every write. *)
Definition locked : Env :=
  {| network := fun _ _ => Responded {| ok := true; body := Some png |};
     fileReader := fun _ => Loaded dataUrl;
     medium := fun _ _ => Refused;
     clock := fun _ => noon |}.

(** As [online], with a reader that fails. *)
Definition unreadable : Env :=
  {| network := fun _ _ => Responded {| ok := true; body := Some png |};
     fileReader := fun _ => ReadFailed;
     medium := fun _ _ => Written;
     clock := fun _ => noon |}.

End Sample.

(* ===================================================================== *)
(** ** Further observations of a world *)
(* ===================================================================== *)

(** Every entry accounts for a non-negative number of bytes. *)
Definition sizes_nonneg (w : World) : Prop :=
  Forall (fun kv => 0 <= size (snd kv)) (images_of (item w)).

(** The calls a run made: [n] more calls of [setItem] at most, [t] more
    readings of the clock at most, no network or reader activity. *)
Definition within (n t : nat) (w w' : World) : Prop :=
  fetched w' = fetched w /\ reads w' = reads w /\
  (writes w <= writes w' <= writes w + n)%nat /\
  (ticks w <= ticks w' <= ticks w + t)%nat.

(* ===================================================================== *)
(** ** [ModelProvider]: the image URL field of the current model *)
(* ===================================================================== *)

(** The functions of the provider close over the state [currentModel];
    here they take it as an argument. *)
Module ModelContext.

Local Open Scope string_scope.

(** [s.includes(t)] *)
Fixpoint includes (s t : string) : bool :=
  String.prefix t s
  || match s with
     | EmptyString => false
     | String _ r => includes r t
     end.

(** [interface ModelInput] and [interface Model]; the fields that the
    provider does not look at are kept together. *)
Record ModelInput := { name : string; schema : string }.

Record Model := { inputs : list ModelInput; about : string }.

(** The test that the three functions pass to [some] and [find]. *)
Definition isImageUrlField (input : ModelInput) : bool :=
  (name input =? "image_url")
  || (name input =? "image_urls")
  || includes (name input) "image_url".

Definition hasImageUrlFields (currentModel : option Model) : bool :=
  match currentModel with
  | None => false
  | Some model => existsb isImageUrlField (inputs model)
  end.

Definition getImageUrlFieldName (currentModel : option Model) : option string :=
  match currentModel with
  | None => None
  | Some model =>
      match find isImageUrlField (inputs model) with
      | Some imageUrlField =>
          if JS.truthy (name imageUrlField) then Some (name imageUrlField)
          else None
      | None => None
      end
  end.

(** [new CustomEvent('pasteImageUrl', { detail: { fieldName, imageUrl } })] *)
Record CustomEvent := {
  event_type : string;
  fieldName : string;
  imageUrl : string
}.

(** The events that [pasteImageUrl] dispatches on [window]. *)
Definition pasteImageUrl (currentModel : option Model) (imageUrl : string)
  : list CustomEvent :=
  match currentModel with
  | None => []
  | Some model =>
      match find isImageUrlField (inputs model) with
      | Some imageUrlField =>
          [{| event_type := "pasteImageUrl";
              fieldName := name imageUrlField;
              imageUrl := imageUrl |}]
      | None => []
      end
  end.

End ModelContext.

(* ===================================================================== *)
(** ** Operations on any state *)
(* ===================================================================== *)

(** The operations of [ImageStorage] run on a [World]; the code around it
    needs the other keys of [localStorage] as well.  [St.M] is the same
    monad over a state of any type. *)
Module St.
Section St.
Context {S : Type}.

Definition M (A : Type) : Type := S -> Result A * S.

Definition ret {A} (a : A) : M A := fun s => (Val a, s).

Definition raise {A} (e : Error) : M A := fun s => (Raise e, s).

Definition bind {A B} (m : M A) (k : A -> M B) : M B :=
  fun s =>
    match m s with
    | (Val a, s') => k a s'
    | (Raise e, s') => (Raise e, s')
    end.

Definition try {A} (m : M A) (handler : Error -> M A) : M A :=
  fun s =>
    match m s with
    | (Val a, s') => (Val a, s')
    | (Raise e, s') => handler e s'
    end.

End St.
End St.

Declare Scope st_scope.
Delimit Scope st_scope with st.
Notation "x <- m ;; k" := (St.bind m (fun x => k))
  (at level 100, m at next level, right associativity) : st_scope.
Notation "m ;; k" := (St.bind m (fun _ => k))
  (at level 100, right associativity) : st_scope.

(* ===================================================================== *)
(** ** [LocalStorage.generations] (src/lib/local-storage.ts) *)
(* ===================================================================== *)

(** The class [LocalGenerations], which [LocalStorage.generations] names,
    with [getFromStorage] and [setToStorage] at the key
    ['fal_local_generations'].  As for the image store, the declared
    types are taken at their word: the text under the key is the
    serialisation of a list of generations, which [JSON.parse] reads back
    as that list, or a text that [JSON.parse] rejects. *)
Module LocalStorage.

Local Open Scope st_scope.

(** [generation.result]: the list under [images] may be missing; the
    other properties ([data], [requestId], [video], [videos]) are only
    copied and are kept together. *)
Record GenerationResult := {
  images : option (list ImageMigration.Image);
  media : string
}.

(** [interface Generation].  [result] may be missing; the properties that
    the storage code does not name are kept by name, each with its JSON
    text. *)
Record Generation := {
  id : string;
  result : option GenerationResult;
  updated_at : string;
  details : JS.object string
}.

(** [Partial<Generation>]: each property is absent or present; a present
    property of [details] may hold [undefined], which [JSON.stringify]
    leaves out. *)
Record Updates := {
  new_id : option string;
  new_result : option (option GenerationResult);
  new_updated_at : option string;
  new_details : JS.object (option string)
}.

(** [{ ...target, ...source }] on the properties kept by name, as it is
    written to the store. *)
Definition assign (target : JS.object string) (source : JS.object (option string))
  : JS.object string :=
  fold_left (fun o kv =>
               match snd kv with
               | Some text => JS.set_prop (fst kv) text o
               | None => JS.delete_prop (fst kv) o
               end)
            source target.

(** [{ ...generation, ...updates, updated_at: now }] *)
Definition spread (generation : Generation) (updates : Updates) (now : string)
  : Generation :=
  {| id := match new_id updates with Some i => i | None => id generation end;
     result := match new_result updates with
               | Some r => r
               | None => result generation
               end;
     updated_at := now;
     details := assign (details generation) (new_details updates) |}.

(** A whole generation passed where updates are expected. *)
Definition whole (generation : Generation) : Updates :=
  {| new_id := Some (id generation);
     new_result := Some (result generation);
     new_updated_at := Some (updated_at generation);
     new_details := map (fun kv => (fst kv, Some (snd kv))) (details generation) |}.

(** The text under ['fal_local_generations']: the serialisation of a list
    of generations, or a text that [JSON.parse] rejects. *)
Inductive GenerationsText :=
| StringifiedGenerations (generations : list Generation)
| UnparsableGenerations (raw : string).

(** The page: the world of the image store, and the generations. *)
Record Page := {
  world : World;
  generations_item : option GenerationsText
}.

(** What surrounds the page: the services of the image store, whether
    [window] is defined, and what the [n]-th call of [setItem] answers when
    it is given a list of generations. *)
Record Browser := {
  platform : Env;
  window_defined : bool;
  generations_medium : nat -> list Generation -> WriteOutcome
}.

(** An operation of the image store, run on the page. *)
Definition lift {A} (m : M A) : St.M (S := Page) A :=
  fun p =>
    let '(r, w) := m (world p) in
    (r, {| world := w; generations_item := generations_item p |}).

Definition M (A : Type) : Type := St.M (S := Page) A.

Definition getItem : M (option GenerationsText) :=
  fun p => (Val (generations_item p), p).

Definition setItem (browser : Browser) (value : list Generation) : M unit :=
  fun p =>
    let counted := count_write (world p) in
    match generations_medium browser (writes (world p)) value with
    | Written =>
        (Val tt, {| world := counted;
                    generations_item := Some (StringifiedGenerations value) |})
    | QuotaExceeded =>
        (Raise QuotaExceededError,
         {| world := counted; generations_item := generations_item p |})
    | Refused =>
        (Raise StorageError,
         {| world := counted; generations_item := generations_item p |})
    end.

Definition JSON_parse (text : GenerationsText) : M (list Generation) :=
  match text with
  | StringifiedGenerations generations => St.ret generations
  | UnparsableGenerations _ => St.raise SyntaxError
  end.

(** [item ? ... : ...]: the serialisation of a list is never empty. *)
Definition item_truthy (text : GenerationsText) : bool :=
  match text with
  | StringifiedGenerations _ => true
  | UnparsableGenerations raw => JS.truthy raw
  end.

(** [getFromStorage(STORAGE_KEYS.generations, defaultValue)] *)
Definition getFromStorage (browser : Browser) (defaultValue : list Generation)
  : M (list Generation) :=
  if negb (window_defined browser) then St.ret defaultValue
  else
    St.try (item <- getItem ;;
            match item with
            | Some text =>
                if item_truthy text then JSON_parse text else St.ret defaultValue
            | None => St.ret defaultValue
            end)
           (fun _ => St.ret defaultValue).

(** [setToStorage(STORAGE_KEYS.generations, value)] *)
Definition setToStorage (browser : Browser) (value : list Generation) : M unit :=
  if negb (window_defined browser) then St.ret tt
  else St.try (setItem browser value) (fun _ => St.ret tt).

(** [array.findIndex(p)], [None] for [-1] *)
Fixpoint findIndex {A} (p : A -> bool) (l : list A) : option nat :=
  match l with
  | [] => None
  | x :: r => if p x then Some O else option_map S (findIndex p r)
  end.

(** [array[index] = value] below the length of the array *)
Fixpoint setAt {A} (index : nat) (value : A) (l : list A) : list A :=
  match l, index with
  | [], _ => []
  | _ :: r, O => value :: r
  | x :: r, S i => x :: setAt i value r
  end.

Definition getGenerations (browser : Browser) : M (list Generation) :=
  getFromStorage browser [].


Definition updateGeneration (browser : Browser) (id' : string) (updates : Updates)
  : M unit :=
  generations <- getGenerations browser ;;
  match findIndex (fun gen => id gen =? id')%string generations with
  | Some index =>
      (* [findIndex] answers an index below the length *)
      match nth_error generations index with
      | Some found =>
          now <- lift (Date_now (platform browser)) ;;
          setToStorage browser
            (setAt index (spread found updates (JS.toISOString now)) generations)
      | None => St.ret tt
      end
  | None => St.ret tt
  end.


End LocalStorage.


(* ===================================================================== *)
(** ** [class ImageMigration]: status, migration and cleanup *)
(* ===================================================================== *)

Module Migration.

Import LocalStorage.
Local Open Scope st_scope.

(** [generation.result?.images], [undefined] when a link is missing *)
Definition imagesOf (generation : Generation)
  : option (list ImageMigration.Image) :=
  match result generation with
  | Some r => images r
  | None => None
  end.

(** [generation.result?.images?.length], as a condition *)
Definition hasImages (generation : Generation) : bool :=
  match imagesOf generation with
  | Some l => negb (Nat.eqb (List.length l) 0)
  | None => false
  end.

(** [img.url && this.isRemoteUrl(img.url)], as a condition *)
Definition isRemoteImage (img : ImageMigration.Image) : bool :=
  match ImageMigration.url img with
  | Some u => JS.truthy u && ImageMigration.isRemoteUrl u
  | None => false
  end.

(** [generation.result?.images?.some(...)], as a condition *)
Definition hasRemoteImages (generation : Generation) : bool :=
  match imagesOf generation with
  | Some l => existsb isRemoteImage l
  | None => false
  end.

Record MigrationStatus := {
  totalGenerations : Z;
  remoteImageGenerations : Z;
  localImageGenerations : Z;
  noImageGenerations : Z
}.

(** The body of [forEach] in [getMigrationStatus]. *)
Definition tally (stats : MigrationStatus) (generation : Generation)
  : MigrationStatus :=
  if negb (hasImages generation) then
    {| totalGenerations := totalGenerations stats;
       remoteImageGenerations := remoteImageGenerations stats;
       localImageGenerations := localImageGenerations stats;
       noImageGenerations := noImageGenerations stats + 1 |}
  else if hasRemoteImages generation then
    {| totalGenerations := totalGenerations stats;
       remoteImageGenerations := remoteImageGenerations stats + 1;
       localImageGenerations := localImageGenerations stats;
       noImageGenerations := noImageGenerations stats |}
  else
    {| totalGenerations := totalGenerations stats;
       remoteImageGenerations := remoteImageGenerations stats;
       localImageGenerations := localImageGenerations stats + 1;
       noImageGenerations := noImageGenerations stats |}.

Definition getMigrationStatus (browser : Browser) : M MigrationStatus :=
  generations <- getGenerations browser ;;
  let stats := {| totalGenerations := Z.of_nat (List.length generations);
                  remoteImageGenerations := 0;
                  localImageGenerations := 0;
                  noImageGenerations := 0 |} in
  St.ret (fold_left tally generations stats).


Section Migrate.

(** [processGeneration] starts the downloads of a generation together;
    the counters of [migrateAllGenerations] depend on nothing but whether
    it returns or throws, so that it is a parameter here. *)
Variable processGeneration : Generation -> M Generation.




End Migrate.

(** [image.originalUrl && !this.isRemoteUrl(image.url || '')] *)
Definition isMigrated (image : ImageMigration.Image) : bool :=
  match ImageMigration.originalUrl image with
  | Some o => JS.truthy o
  | None => false
  end
  && negb (ImageMigration.isRemoteUrl
             match ImageMigration.url image with
             | Some u => if JS.truthy u then u else EmptyString
             | None => EmptyString
             end).

(** The function mapped over the images by [cleanupMigratedImages]. *)
Definition cleanImage (image : ImageMigration.Image) : ImageMigration.Image :=
  if isMigrated image then
    {| ImageMigration.url := ImageMigration.url image;
       ImageMigration.originalUrl := None;
       ImageMigration.others := ImageMigration.others image |}
  else image.

(** The body of [forEach] in [cleanupMigratedImages], with the counter
    passed along. *)
Definition cleanupOne (browser : Browser) (cleanedCount : Z)
           (generation : Generation) : M Z :=
  if negb (hasImages generation) then St.ret cleanedCount
  else
    match result generation with
    | Some r =>
        match images r with
        | Some imgs =>
            let hasChanges := existsb isMigrated imgs in
            let cleanedCount :=
              cleanedCount + Z.of_nat (List.length (filter isMigrated imgs)) in
            let cleanedImages := map cleanImage imgs in
            if hasChanges then
              now <- lift (Date_now (platform browser)) ;;
              let updatedGeneration :=
                {| id := id generation;
                   result := Some {| images := Some cleanedImages;
                                     media := media r |};
                   updated_at := JS.toISOString now;
                   details := details generation |} in
              updateGeneration browser (id generation) (whole updatedGeneration) ;;
              St.ret cleanedCount
            else St.ret cleanedCount
        | None => St.ret cleanedCount
        end
    | None => St.ret cleanedCount
    end.

Fixpoint cleanupLoop (browser : Browser) (generations : list Generation)
         (cleanedCount : Z) : M Z :=
  match generations with
  | [] => St.ret cleanedCount
  | generation :: rest =>
      cleanedCount <- cleanupOne browser cleanedCount generation ;;
      cleanupLoop browser rest cleanedCount
  end.

Definition cleanupMigratedImages (browser : Browser) : M Z :=
  generations <- getGenerations browser ;;
  cleanupLoop browser generations 0.

(** [processGeneration].  The downloads of the images are started
    together ([Promise.all] over the callbacks); what they do to the page
    and what they resolve to, or that they reject, is the parameter
    [downloads].  The rest runs after them. *)
Definition processGeneration
           (downloads : list ImageMigration.Image -> M (list ImageMigration.Image))
           (browser : Browser) (generation : Generation) : M Generation :=
  if negb (hasImages generation) then St.ret generation
  else
    match result generation with
    | Some r =>
        match images r with
        | Some imgs =>
            St.try
              (processedImages <- downloads imgs ;;
               now <- lift (Date_now (platform browser)) ;;
               let updatedGeneration :=
                 {| id := id generation;
                    result := Some {| images := Some processedImages;
                                      media := media r |};
                    updated_at := JS.toISOString now;
                    details := details generation |} in
               updateGeneration browser (id generation) (whole updatedGeneration) ;;
               St.ret updatedGeneration)
              (fun _ => St.ret generation)
        | None => St.ret generation
        end
    | None => St.ret generation
    end.

End Migration.

(* ===================================================================== *)
(** ** Observations of a page *)
(* ===================================================================== *)

(** The list a reader of the generations obtains. *)
Definition stored (browser : LocalStorage.Browser) (p : LocalStorage.Page)
  : list LocalStorage.Generation :=
  if LocalStorage.window_defined browser then
    match LocalStorage.generations_item p with
    | Some (LocalStorage.StringifiedGenerations generations) => generations
    | _ => []
    end
  else [].

(** The page after a call of [setItem] with a list of generations, when
    the errors of that call are caught. *)
Definition saved (browser : LocalStorage.Browser)
           (value : list LocalStorage.Generation) (p : LocalStorage.Page)
  : LocalStorage.Page :=
  {| LocalStorage.world := count_write (LocalStorage.world p);
     LocalStorage.generations_item :=
       match LocalStorage.generations_medium browser
               (writes (LocalStorage.world p)) value with
       | Written => Some (LocalStorage.StringifiedGenerations value)
       | _ => LocalStorage.generations_item p
       end |}.

Definition ticked (p : LocalStorage.Page) : LocalStorage.Page :=
  {| LocalStorage.world := count_tick (LocalStorage.world p);
     LocalStorage.generations_item := LocalStorage.generations_item p |}.





(* ===================================================================== *)
(** ** Sample pages *)
(* ===================================================================== *)

Module SamplePage.
Import LocalStorage.

Definition remoteImage : ImageMigration.Image :=
  {| ImageMigration.url := Some Sample.url;
     ImageMigration.originalUrl := None;
     ImageMigration.others := EmptyString |}.

Definition migratedImage : ImageMigration.Image :=
  {| ImageMigration.url := Some Sample.dataUrl;
     ImageMigration.originalUrl := Some Sample.url;
     ImageMigration.others := EmptyString |}.

Definition generation (i : string) (imgs : option (list ImageMigration.Image))
  : Generation :=
  {| id := i;
     result := Some {| images := imgs; media := EmptyString |};
     updated_at := "2024-11-01T00:00:00.000Z";
     details := [("model_id", "fal-ai/flux")]%string |}.

Definition g1 : Generation := generation "g1" (Some [remoteImage]).
Definition g2 : Generation := generation "g2" (Some [migratedImage; Sample.embeddedImage]).
Definition g3 : Generation := generation "g3" None.

(** A browser whose medium takes every list of generations. *)
Definition chrome : Browser :=
  {| platform := Sample.online;
     window_defined := true;
     generations_medium := fun _ _ => Written |}.

(** The same, out of room. *)
Definition chromeFull : Browser :=
  {| platform := Sample.online;
     window_defined := true;
     generations_medium := fun _ _ => QuotaExceeded |}.

(** Rendering on the server. *)
Definition server : Browser :=
  {| platform := Sample.online;
     window_defined := false;
     generations_medium := fun _ _ => Written |}.

Definition keeping (generations : list Generation) : Page :=
  {| world := Sample.fresh;
     generations_item := Some (StringifiedGenerations generations) |}.

(** The downloads of a generation with one image, which run alone. *)
Definition oneDownload (env : Env) (imgs : list ImageMigration.Image)
  : M (list ImageMigration.Image) :=
  match imgs with
  | [image] =>
      St.bind (lift (ImageMigration.processImage env image))
              (fun processed => St.ret [processed])
  | _ => St.raise NetworkError
  end.

End SamplePage.

(* ===================================================================== *)
(** ** The definitions at work *)
(* ===================================================================== *)

(** [0.8] and [1/3] as doubles: 0x3FE999999999999A and 0x3FD5555555555555. *)
Example literal_0_8 : F64.literal 8 1 = (3602879701896397 # 4503599627370496)%Q.
Proof. vm_compute. reflexivity. Qed.

Example one_third : F64.div 1 3 = (6004799503160661 # 18014398509481984)%Q.
Proof. vm_compute. reflexivity. Qed.

(** [(0.25).toFixed(1)] is "0.3"; [(3801088 / 52428800 * 100).toFixed(1)] is
    "7.2", the product being 7.249999999999999. *)
Example toFixed_tie : F64.units (F64.toFixed 1 (1 # 4)) = 3.
Proof. vm_compute. reflexivity. Qed.

Example toFixed_below_tie :
  F64.units (F64.toFixed 1 (F64.mul (F64.div (inject_Z 3801088) (inject_Z 52428800))
                                    (inject_Z 100))) = 72.
Proof. vm_compute. reflexivity. Qed.

Example toISOString_epoch : JS.toISOString 0 = "1970-01-01T00:00:00.000Z"%string.
Proof. vm_compute. reflexivity. Qed.

Example toISOString_noon :
  JS.toISOString Sample.noon = "2024-11-03T10:00:00.000Z"%string.
Proof. vm_compute. reflexivity. Qed.

Example escape_controls :
  JS.escape (String "009"%char "a\b") = "\ta\\b"%string.
Proof. vm_compute. reflexivity. Qed.

Example stringify_empty : JSON_stringify [] = "{}"%string.
Proof. reflexivity. Qed.

(** Array indices come first in ascending order, then the other keys in
    the order of their creation; an assignment to an existing key keeps
    its place. *)
Example set_prop_order :
  JS.keys (JS.set_prop "a" 4 (JS.set_prop "2" 3 (JS.set_prop "b" 2
          (JS.set_prop "10" 1 (JS.set_prop "a" 0 [])))))
  = ["2"; "10"; "a"; "b"]%string.
Proof. vm_compute. reflexivity. Qed.

Example sort_is_stable :
  JS.sort (fun a b => fst a - fst b) [(2, "x"); (1, "y"); (2, "z"); (1, "w")]%string
  = [(1, "y"); (1, "w"); (2, "x"); (2, "z")]%string.
Proof. vm_compute. reflexivity. Qed.

Example isRemoteUrl_data : ImageMigration.isRemoteUrl Sample.dataUrl = false.
Proof. reflexivity. Qed.

Example isRemoteUrl_https : ImageMigration.isRemoteUrl Sample.url = true.
Proof. reflexivity. Qed.

(* ===================================================================== *)
(** ** Facts about the arithmetic *)
(* ===================================================================== *)

Section F64_facts.
Import F64.

Lemma round_half_even_near n d :
  0 < d -> - d <= 2 * (round_half_even n d * d) - 2 * n <= d.
Proof.
  intros Hd. unfold round_half_even.
  pose proof (Z.div_mod n d ltac:(lia)) as E.
  pose proof (Z.mod_pos_bound n d Hd) as B.
  destruct (Z.compare_spec (2 * (n mod d)) d) as [C|C|C];
    [destruct (Z.even (n / d))| |]; nia.
Qed.

Lemma scale_spec n d e N D :
  0 < n -> 0 < d -> scale n d e = (N, D) ->
  0 < N /\ 0 < D /\
  ((0 <= e /\ N = n /\ D = d * 2 ^ e) \/ (e < 0 /\ N = n * 2 ^ (- e) /\ D = d)).
Proof.
  intros Hn Hd. unfold scale.
  destruct (Z.leb_spec 0 e) as [He|He]; intros [= <- <-].
  - assert (0 < 2 ^ e) by (apply Z.pow_pos_nonneg; lia). split; [|split]; [nia | nia | left; auto].
  - assert (0 < 2 ^ (- e)) by (apply Z.pow_pos_nonneg; lia). split; [|split]; [nia | nia | right; auto].
Qed.

Lemma ulp_exponent_normal n d N D :
  0 < n -> 0 < d -> scale n d (ulp_exponent n d) = (N, D) ->
  2 ^ 52 * D <= N.
Proof.
  intros Hn Hd. unfold ulp_exponent.
  set (e0 := Z.log2 n - Z.log2 d - 52).
  destruct (scale n d e0) as [N0 D0] eqn:S0.
  destruct (Z.leb_spec (2 ^ 52 * D0) N0) as [T|T].
  - rewrite S0. intros [= <- <-]. exact T.
  - intros S1.
    pose proof (Z.log2_spec n Hn) as [Ln _].
    pose proof (Z.log2_spec d Hd) as [_ Ld].
    pose proof (Z.log2_nonneg n) as Pn. pose proof (Z.log2_nonneg d) as Pd.
    set (a := Z.log2 n) in *. set (b := Z.log2 d) in *.
    unfold scale in S1.
    destruct (Z.leb_spec 0 (e0 - 1)) as [He|He]; injection S1 as <- <-.
    + assert (E : 2 ^ a = 2 ^ (e0 - 1) * 2 ^ 52 * 2 ^ Z.succ b).
      { rewrite <- !Z.pow_add_r by lia. f_equal. unfold e0. lia. }
      assert (0 < 2 ^ (e0 - 1)) by (apply Z.pow_pos_nonneg; lia).
      nia.
    + assert (E : 2 ^ a * 2 ^ (- (e0 - 1)) = 2 ^ 52 * 2 ^ Z.succ b).
      { rewrite <- !Z.pow_add_r by lia. f_equal. unfold e0. lia. }
      assert (0 < 2 ^ (- (e0 - 1))) by (apply Z.pow_pos_nonneg; lia).
      nia.
Qed.

Lemma ulp_exponent_bounded n d N D :
  0 < n -> 0 < d -> scale n d (ulp_exponent n d) = (N, D) ->
  N < 2 ^ 53 * D.
Proof.
  intros Hn Hd. unfold ulp_exponent.
  set (e0 := Z.log2 n - Z.log2 d - 52).
  pose proof (Z.log2_spec n Hn) as [_ Ln].
  pose proof (Z.log2_spec d Hd) as [Ld _].
  pose proof (Z.log2_nonneg n) as Pn. pose proof (Z.log2_nonneg d) as Pd.
  set (a := Z.log2 n) in *. set (b := Z.log2 d) in *.
  destruct (scale n d e0) as [N0 D0] eqn:S0.
  destruct (Z.leb_spec (2 ^ 52 * D0) N0) as [T|T].
  - rewrite S0. intros [= <- <-]. unfold scale in S0.
    destruct (Z.leb_spec 0 e0) as [He|He]; injection S0 as <- <-.
    + assert (E : 2 ^ Z.succ a = 2 ^ 53 * 2 ^ e0 * 2 ^ b).
      { rewrite <- !Z.pow_add_r by lia. f_equal. unfold e0. lia. }
      assert (0 < 2 ^ e0) by (apply Z.pow_pos_nonneg; lia).
      nia.
    + assert (E : 2 ^ Z.succ a * 2 ^ (- e0) = 2 ^ 53 * 2 ^ b).
      { rewrite <- !Z.pow_add_r by lia. f_equal. unfold e0. lia. }
      assert (0 < 2 ^ (- e0)) by (apply Z.pow_pos_nonneg; lia).
      nia.
  - unfold scale in *.
    destruct (Z.leb_spec 0 (e0 - 1)) as [He|He]; intros [= <- <-].
    + destruct (Z.leb_spec 0 e0); [|lia]. injection S0 as <- <-.
      replace e0 with (e0 - 1 + 1) in T at 1 by lia.
      rewrite Z.pow_add_r in T by lia. lia.
    + destruct (Z.leb_spec 0 e0) as [He0|He0]; injection S0 as <- <-.
      * assert (e0 = 0) by lia. replace (- (e0 - 1)) with 1 by lia.
        replace e0 with 0 in T by lia. lia.
      * replace (- (e0 - 1)) with (- e0 + 1) by lia.
        rewrite Z.pow_add_r by lia. lia.
Qed.

(** Rounding moves a positive number by at most half a unit in the last
    place, that is by a relative [2^-53]. *)
Lemma fl_relative_error (x : Q) :
  (0 < x)%Q -> (Qabs (fl x - x) <= x * (1 # 2 ^ 53))%Q.
Proof.
  destruct x as [n d]. intros Hx.
  assert (Hn : 0 < n) by (unfold Qlt in Hx; simpl in Hx; lia).
  unfold fl. cbn [Qnum Qden].
  destruct (Z.eqb_spec n 0) as [->|_]; [lia|].
  rewrite (Z.abs_eq n), (Z.sgn_pos n) by lia.
  destruct (scale n (Z.pos d) (ulp_exponent n (Z.pos d))) as [N D] eqn:S.
  assert (Hd : 0 < Z.pos d) by lia.
  pose proof (ulp_exponent_normal n (Z.pos d) N D Hn Hd S) as Hnorm.
  destruct (scale_spec _ _ _ _ _ Hn Hd S) as (HN & HD & Hs).
  pose proof (round_half_even_near N D HD) as Hr.
  set (m := round_half_even N D) in *.
  rewrite Qred_correct.
  apply Qabs_Qle_condition.
  unfold pow2.
  destruct Hs as [(He & -> & ->)|(He & -> & ->)].
  - destruct (Z.leb_spec 0 (ulp_exponent n (Z.pos d))); [|lia].
    set (p := 2 ^ ulp_exponent n (Z.pos d)) in *.
    unfold Qle, Qminus, Qplus, Qopp, Qmult, inject_Z; cbn [Qnum Qden].
    rewrite ?Pos2Z.inj_mul. split; nia.
  - destruct (Z.leb_spec 0 (ulp_exponent n (Z.pos d))); [lia|].
    set (p := 2 ^ (- ulp_exponent n (Z.pos d))) in *.
    assert (Hp : 0 < p) by (apply Z.pow_pos_nonneg; lia).
    unfold Qle, Qminus, Qplus, Qopp, Qmult, inject_Z; cbn [Qnum Qden].
    rewrite ?Pos2Z.inj_mul, ?Z2Pos.id by lia. split; nia.
Qed.

Lemma fl_zero (x : Q) : (x == 0)%Q -> fl x = 0%Q.
Proof.
  destruct x as [n d]. unfold Qeq; cbn. intros H. unfold fl; cbn [Qnum].
  replace n with 0 by lia. reflexivity.
Qed.


(** Integers below [2^53] are their own rounding. *)
Lemma fl_integer (k : Z) :
  Z.abs k < 2 ^ 53 -> (fl (inject_Z k) == inject_Z k)%Q.
Proof.
  intros Hk. unfold fl, inject_Z. cbn [Qnum Qden].
  destruct (Z.eqb_spec k 0) as [->|Hk0]; [reflexivity|].
  assert (Ha : 0 < Z.abs k) by lia.
  destruct (scale (Z.abs k) 1 (ulp_exponent (Z.abs k) 1)) as [N D] eqn:S.
  pose proof (ulp_exponent_normal _ _ _ _ Ha Z.lt_0_1 S) as Hnorm.
  destruct (scale_spec _ _ _ _ _ Ha Z.lt_0_1 S) as (HN & HD & Hs).
  rewrite Qred_correct. unfold pow2.
  destruct Hs as [(He & -> & ->)|(He & -> & ->)].
  - assert (E : ulp_exponent (Z.abs k) 1 = 0).
    { destruct (Z.eq_dec (ulp_exponent (Z.abs k) 1) 0) as [|Hne]; [assumption|].
      exfalso.
      assert (2 ^ 1 <= 2 ^ ulp_exponent (Z.abs k) 1)
        by (apply Z.pow_le_mono_r; lia).
      change (2 ^ 1) with 2 in *. lia. }
    rewrite E. cbn [Z.leb Z.compare Z.pow Z.pow_pos Pos.iter Z.mul Pos.mul].
    unfold round_half_even. rewrite Z.mod_1_r, Z.div_1_r. cbn [Z.mul Z.compare].
    unfold Qeq; cbn [Qnum Qden Qmult inject_Z]. destruct k; cbn; lia.
  - destruct (Z.leb_spec 0 (ulp_exponent (Z.abs k) 1)); [lia|].
    set (p := 2 ^ (- ulp_exponent (Z.abs k) 1)) in *.
    assert (Hp : 0 < p) by (apply Z.pow_pos_nonneg; lia).
    unfold round_half_even. rewrite Z.mod_1_r, Z.div_1_r. cbn [Z.mul Z.compare].
    unfold Qeq; cbn [Qnum Qden Qmult inject_Z].
    rewrite Pos.mul_1_l, Z2Pos.id by lia.
    pose proof (Z.abs_sgn k). nia.
Qed.

(** The two products are computed without error. *)
Lemma threshold80_exact : threshold80 = inject_Z 41943040.
Proof. vm_compute. reflexivity. Qed.

Lemma threshold60_exact : threshold60 = inject_Z 31457280.
Proof. vm_compute. reflexivity. Qed.

Lemma gt_80 (a : Z) : ImageStorage.gt a threshold80 = negb (a <=? 41943040).
Proof.
  rewrite threshold80_exact. unfold ImageStorage.gt, Qle_bool, inject_Z.
  cbn [Qnum Qden]. rewrite !Z.mul_1_r. reflexivity.
Qed.

Lemma ge_iff (a : Z) (b : Q) : ImageStorage.ge a b = true <-> (b <= inject_Z a)%Q.
Proof. unfold ImageStorage.ge. apply Qle_bool_iff. Qed.

End F64_facts.

(* ===================================================================== *)
(** ** Facts about objects *)
(* ===================================================================== *)

Section Object_facts.
Context {V : Type}.
Implicit Types (o : JS.object V) (k : string) (v : V).

Lemma get_prop_None k o : JS.get_prop k o = None <-> ~ In k (JS.keys o).
Proof.
  induction o as [|[k' v'] r IH]; cbn.
  - tauto.
  - destruct (String.eqb_spec k k') as [->|Hne].
    + split; [discriminate | intros H; exfalso; apply H; now left].
    + rewrite IH. split; [intros H [E|I]; [congruence | tauto] | tauto].
Qed.

Lemma get_prop_In k v o : JS.get_prop k o = Some v -> In (k, v) o.
Proof.
  induction o as [|[k' v'] r IH]; cbn; [discriminate|].
  destruct (String.eqb_spec k k') as [->|Hne].
  - intros [= ->]. now left.
  - intros H. right. auto.
Qed.

Lemma get_prop_filter_None k (p : string * V -> bool) o :
  JS.get_prop k o = None -> JS.get_prop k (filter p o) = None.
Proof.
  rewrite !get_prop_None. unfold JS.keys. intros H I. apply H.
  apply in_map_iff in I as (kv & E & I). apply filter_In in I as [I _].
  apply in_map_iff. eauto.
Qed.

Lemma get_prop_delete_None k k' o :
  JS.get_prop k o = None -> JS.get_prop k (JS.delete_prop k' o) = None.
Proof. apply get_prop_filter_None. Qed.

Lemma insert_index_keys i k v o :
  Permutation (JS.keys (JS.insert_index i k v o)) (k :: JS.keys o).
Proof.
  induction o as [|[k' v'] r IH]; cbn; [reflexivity|].
  destruct (JS.array_index k') as [j|]; [destruct (j <? i)%N|]; cbn; try reflexivity.
  rewrite IH. apply perm_swap.
Qed.

Lemma set_prop_keys k v o :
  Permutation (JS.keys (JS.set_prop k v o))
              (match JS.get_prop k o with Some _ => JS.keys o | None => k :: JS.keys o end).
Proof.
  unfold JS.set_prop. destruct (JS.get_prop k o) eqn:G.
  - unfold JS.keys. rewrite map_map. erewrite map_ext; [reflexivity|].
    intros [k' v']; cbn. destruct (String.eqb_spec k k'); cbn; congruence.
  - destruct (JS.array_index k).
    + apply insert_index_keys.
    + unfold JS.keys. rewrite map_app. cbn. symmetry. apply Permutation_cons_append.
Qed.


Lemma get_prop_app k o o' :
  JS.get_prop k (o ++ o') =
  match JS.get_prop k o with Some x => Some x | None => JS.get_prop k o' end.
Proof.
  induction o as [|[k' v'] r IH]; cbn; [reflexivity|].
  destruct (k =? k')%string; auto.
Qed.


Lemma distinct_NoDup (l : list string) : distinct l = true <-> NoDup l.
Proof.
  induction l as [|k r IH]; cbn.
  - split; [constructor | reflexivity].
  - rewrite andb_true_iff, negb_true_iff, IH. split.
    + intros [H1 H2]. constructor; [|assumption]. intros I.
      assert (existsb (String.eqb k) r = true); [|congruence].
      apply existsb_exists. exists k. split; [assumption | apply String.eqb_refl].
    + intros H. inversion H as [|? ? H1 H2]; subst. split; [|assumption].
      destruct (existsb (String.eqb k) r) eqn:E; [|reflexivity].
      apply existsb_exists in E as (x & I & E). apply String.eqb_eq in E. subst.
      contradiction.
Qed.

Lemma NoDup_keys_filter (p : string * V -> bool) o :
  NoDup (JS.keys o) -> NoDup (JS.keys (filter p o)).
Proof.
  induction o as [|[k' v'] r IH]; cbn; [constructor|].
  intros H. inversion H as [|? ? H1 H2]; subst.
  destruct (p (k', v')); cbn; [constructor|]; auto.
  intros I. apply H1. unfold JS.keys in *.
  apply in_map_iff in I as (kv & E & I). apply filter_In in I as [I _].
  apply in_map_iff. eauto.
Qed.

Lemma NoDup_keys_set_prop k v o :
  NoDup (JS.keys o) -> NoDup (JS.keys (JS.set_prop k v o)).
Proof.
  intros H. eapply Permutation_NoDup; [symmetry; apply set_prop_keys|].
  destruct (JS.get_prop k o) eqn:G; [assumption|].
  constructor; [|assumption]. now apply get_prop_None.
Qed.

(** With pairwise different keys, an entry is determined by its key. *)
Lemma NoDup_keys_unique o k v v' :
  NoDup (JS.keys o) -> In (k, v) o -> In (k, v') o -> v = v'.
Proof.
  induction o as [|[k0 v0] r IH]; cbn; [tauto|].
  intros H. inversion H as [|? ? H1 H2]; subst.
  assert (K : forall x, In (k0, x) r -> False).
  { intros x I. apply H1. unfold JS.keys. apply in_map_iff. exists (k0, x). auto. }
  intros [E|I] [E'|I'].
  - congruence.
  - injection E as -> ->. exfalso; eauto.
  - injection E' as -> ->. exfalso; eauto.
  - auto.
Qed.

End Object_facts.

(* ===================================================================== *)
(** ** Facts about the sort *)
(* ===================================================================== *)

Section Sort_facts.
Context {A : Type} (compareFn : A -> A -> Z).

Lemma sort_insert_perm x l : Permutation (JS.sort_insert compareFn x l) (x :: l).
Proof.
  induction l as [|y r IH]; cbn; [reflexivity|].
  destruct (compareFn y x <? 0); [|reflexivity].
  rewrite IH. apply perm_swap.
Qed.

Lemma sort_perm l : Permutation (JS.sort compareFn l) l.
Proof.
  induction l as [|x r IH]; cbn; [reflexivity|].
  rewrite sort_insert_perm. now constructor.
Qed.

(** Elements that the comparison does not separate keep their order. *)
Lemma sort_insert_stable (p : A -> bool) x l :
  (forall y, In y l -> p y = true -> p x = true -> ~ compareFn y x < 0) ->
  filter p (JS.sort_insert compareFn x l) = filter p (x :: l).
Proof.
  induction l as [|y r IH]; intros H; cbn; [reflexivity|].
  destruct (Z.ltb_spec (compareFn y x) 0) as [L|L]; [|reflexivity].
  cbn. rewrite IH by (intros; apply H; auto; now right). cbn.
  destruct (p y) eqn:Py, (p x) eqn:Px; try reflexivity.
  exfalso. apply (H y); auto. now left.
Qed.

Lemma sort_stable (p : A -> bool) l :
  (forall x y, p x = true -> p y = true -> ~ compareFn x y < 0) ->
  filter p (JS.sort compareFn l) = filter p l.
Proof.
  intros H. induction l as [|x r IH]; cbn; [reflexivity|].
  rewrite sort_insert_stable by (intros; apply H; assumption).
  cbn. now rewrite IH.
Qed.

Hypothesis total : forall a b, ~ compareFn b a < 0 -> compareFn a b <= 0.
Hypothesis trans :
  forall a b c, compareFn a b <= 0 -> compareFn b c <= 0 -> compareFn a c <= 0.

Lemma sort_insert_sorted x l :
  StronglySorted (fun a b => compareFn a b <= 0) l ->
  StronglySorted (fun a b => compareFn a b <= 0) (JS.sort_insert compareFn x l).
Proof.
  induction 1 as [|y r S IH F]; cbn.
  - repeat constructor.
  - destruct (Z.ltb_spec (compareFn y x) 0) as [L|L].
    + constructor; [assumption|].
      eapply Permutation_Forall; [symmetry; apply sort_insert_perm|].
      constructor; [lia | assumption].
    + assert (Hxy : compareFn x y <= 0) by (apply total; lia).
      constructor; [now constructor|].
      constructor; [assumption|].
      eapply Forall_impl; [|exact F]. intros z Hz. eauto.
Qed.

Lemma sort_sorted l :
  StronglySorted (fun a b => compareFn a b <= 0) (JS.sort compareFn l).
Proof.
  induction l as [|x r IH]; cbn; [constructor | now apply sort_insert_sorted].
Qed.

End Sort_facts.

Lemma bySizeThenAge_le a b :
  ImageStorage.bySizeThenAge a b <= 0 <-> Spec.evictsBefore a b.
Proof.
  unfold ImageStorage.bySizeThenAge, Spec.evictsBefore.
  destruct (Z.eqb_spec (size (snd b) - size (snd a)) 0); cbn; lia.
Qed.

(** The order in which [freeUpSpace] visits the entries: largest first
    and oldest first among equal sizes. *)
Lemma eviction_order_sorted (m : Images) :
  StronglySorted Spec.evictsBefore (JS.sort ImageStorage.bySizeThenAge m).
Proof.
  assert (S : StronglySorted (fun a b => ImageStorage.bySizeThenAge a b <= 0)
                             (JS.sort ImageStorage.bySizeThenAge m)).
  { apply sort_sorted.
    - intros a b. unfold ImageStorage.bySizeThenAge.
      destruct (Z.eqb_spec (size (snd a) - size (snd b)) 0),
               (Z.eqb_spec (size (snd b) - size (snd a)) 0); cbn; lia.
    - intros a b c. rewrite !bySizeThenAge_le. unfold Spec.evictsBefore. lia. }
  induction S as [|x l S IH F]; constructor; [assumption|].
  eapply Forall_impl; [|exact F]. intros b. apply bySizeThenAge_le.
Qed.

(** Entries of equal size and age are visited in enumeration order. *)
Lemma eviction_order_stable (m : Images) (sz t : Z) :
  let same kv := (size (snd kv) =? sz) && (downloadedAt (snd kv) =? t) in
  filter same (JS.sort ImageStorage.bySizeThenAge m) = filter same m.
Proof.
  intros same. apply sort_stable. intros x y Hx Hy. unfold same in *.
  apply andb_true_iff in Hx as [X1 X2]. apply andb_true_iff in Hy as [Y1 Y2].
  unfold ImageStorage.bySizeThenAge.
  destruct (Z.eqb_spec (size (snd y) - size (snd x)) 0); cbn; lia.
Qed.

(* ===================================================================== *)
(** ** Facts about the two eviction loops *)
(* ===================================================================== *)

Lemma without_nil (m : Images) : Spec.without [] m = m.
Proof.
  unfold Spec.without. induction m as [|kv r IH]; [reflexivity|].
  cbn in *. now rewrite IH.
Qed.

Lemma without_cons kv vs (m : Images) :
  Spec.without (kv :: vs) m = Spec.without vs (JS.delete_prop (fst kv) m).
Proof.
  unfold Spec.without, JS.delete_prop. cbn.
  induction m as [|x r IH]; cbn; [reflexivity|].
  rewrite (String.eqb_sym (fst x) (fst kv)).
  destruct (fst kv =? fst x)%string; cbn; [assumption|].
  unfold JS.keys in *. now rewrite IH.
Qed.

Lemma ageLoop_without now maxAge l (m : Images) c :
  ImageStorage.ageLoop now maxAge l m c =
  (Spec.without (filter (Spec.olderThan now maxAge) l) m,
   c || existsb (Spec.olderThan now maxAge) l).
Proof.
  unfold ImageStorage.ageLoop.
  revert m c. induction l as [|[url img] r IH]; intros m c.
  - cbn. now rewrite without_nil, orb_false_r.
  - cbn [fold_left filter existsb].
    change (now - downloadedAt img >? maxAge)
      with (Spec.olderThan now maxAge (url, img)).
    destruct (Spec.olderThan now maxAge (url, img)).
    + rewrite IH, without_cons. cbn. now rewrite orb_true_r.
    + rewrite IH. reflexivity.
Qed.

Lemma freeLoop_without target l (m : Images) freed c :
  ImageStorage.freeLoop target l m freed c =
  (Spec.without (Spec.minimalPrefix target l freed) m,
   freed + Spec.sumSizes (Spec.minimalPrefix target l freed),
   c || negb (Nat.eqb (List.length (Spec.minimalPrefix target l freed)) 0)).
Proof.
  revert m freed c. induction l as [|[url img] r IH]; intros m freed c; cbn.
  - now rewrite without_nil, orb_false_r, Z.add_0_r.
  - unfold ImageStorage.ge. destruct (Qle_bool target (inject_Z freed)); cbn.
    + now rewrite without_nil, orb_false_r, Z.add_0_r.
    + rewrite IH, without_cons. cbn. rewrite orb_true_r.
      f_equal. f_equal. unfold Spec.sumSizes. lia.
Qed.

(** The entries removed form an initial segment of the order... *)
Lemma minimalPrefix_prefix target l freed :
  exists rest, l = Spec.minimalPrefix target l freed ++ rest.
Proof.
  revert freed. induction l as [|kv r IH]; intros freed; cbn.
  - now exists [].
  - destruct (Qle_bool target (inject_Z freed)).
    + now exists (kv :: r).
    + destruct (IH (freed + size (snd kv))) as [rest E]. exists rest.
      cbn. now rewrite <- E.
Qed.

(** ... that stops as soon as the target is met, or at the end ... *)
Lemma minimalPrefix_reaches target l freed :
  (target <= inject_Z (freed + Spec.sumSizes (Spec.minimalPrefix target l freed)))%Q
  \/ Spec.minimalPrefix target l freed = l.
Proof.
  revert freed. induction l as [|kv r IH]; intros freed; cbn.
  - now right.
  - destruct (Qle_bool target (inject_Z freed)) eqn:E.
    + left. cbn. rewrite Z.add_0_r. now apply Qle_bool_iff.
    + destruct (IH (freed + size (snd kv))) as [H|H].
      * left. cbn. now rewrite Z.add_assoc.
      * right. now rewrite H.
Qed.

(** ... and not later: no shorter initial segment meets the target. *)
Lemma minimalPrefix_minimal target l freed p q :
  Spec.minimalPrefix target l freed = p ++ q -> q <> [] ->
  ~ (target <= inject_Z (freed + Spec.sumSizes p))%Q.
Proof.
  revert freed p. induction l as [|kv r IH]; intros freed p; cbn.
  - destruct p, q; cbn; congruence.
  - destruct (Qle_bool target (inject_Z freed)) eqn:E.
    + destruct p, q; cbn; congruence.
    + intros H Hq. destruct p as [|x p]; cbn in *.
      * rewrite Z.add_0_r. intros L. apply Qle_bool_iff in L. congruence.
      * injection H as <- H. rewrite Z.add_assoc. now apply IH.
Qed.

Lemma filter_length_lt {A} (p : A -> bool) (l : list A) :
  (List.length (filter p l) <? List.length l)%nat = negb (forallb p l).
Proof.
  induction l as [|x r IH]; [reflexivity|].
  pose proof (filter_length_le p r) as L.
  cbn [filter forallb]. destruct (p x); cbn [List.length andb negb].
  - exact IH.
  - apply Nat.ltb_lt. lia.
Qed.

Lemma without_In vs (m : Images) kv :
  In kv (Spec.without vs m) <-> In kv m /\ ~ In (fst kv) (JS.keys vs).
Proof.
  unfold Spec.without. rewrite filter_In, negb_true_iff.
  split; intros [I H]; split; try assumption.
  - intros K. assert (existsb (String.eqb (fst kv)) (JS.keys vs) = true); [|congruence].
    apply existsb_exists. exists (fst kv). split; [assumption | apply String.eqb_refl].
  - destruct (existsb (String.eqb (fst kv)) (JS.keys vs)) eqn:E; [|reflexivity].
    apply existsb_exists in E as (k & K & E). apply String.eqb_eq in E. now subst.
Qed.

(** With pairwise different keys, removing by key removes exactly the
    entries of the list. *)
Lemma without_old now maxAge (m : Images) :
  NoDup (JS.keys m) ->
  Spec.without (filter (Spec.olderThan now maxAge) m) m =
  Spec.evictOlderThan now maxAge m.
Proof.
  intros ND. unfold Spec.without, Spec.evictOlderThan.
  apply filter_ext_in. intros [k v] I. f_equal.
  destruct (Spec.olderThan now maxAge (k, v)) eqn:O.
  - apply existsb_exists. exists k. split; [|apply String.eqb_refl].
    unfold JS.keys. apply in_map_iff. exists (k, v). split; [reflexivity|].
    apply filter_In. auto.
  - destruct (existsb _ _) eqn:E; [|reflexivity].
    apply existsb_exists in E as (k' & K & E). apply String.eqb_eq in E.
    cbn in E. subst k'. unfold JS.keys in K.
    apply in_map_iff in K as ([k' v'] & E & K). cbn in E. subst k'.
    apply filter_In in K as [K O'].
    rewrite (NoDup_keys_unique m k v v' ND I K) in O. congruence.
Qed.

Lemma existsb_forallb {A} (p : A -> bool) l :
  existsb p l = negb (forallb (fun x => negb (p x)) l).
Proof.
  induction l as [|x r IH]; cbn; [reflexivity|].
  rewrite IH. now destruct (p x).
Qed.

(* ===================================================================== *)
(** ** The operations of the store, run *)
(* ===================================================================== *)

Ltac run := unfold try, bind, ret, raise.

Lemma getStoredImages_run w :
  ImageStorage.getStoredImages w = (Val (images_of (item w)), w).
Proof.
  unfold ImageStorage.getStoredImages, localStorage_getItem. run.
  destruct (item w) as [[m|raw]|]; cbn; try reflexivity.
  destruct raw; reflexivity.
Qed.

Lemma getStoredImage_run url w :
  ImageStorage.getStoredImage url w = (Val (cached url w), w).
Proof.
  unfold ImageStorage.getStoredImage. run. now rewrite getStoredImages_run.
Qed.

Lemma getCurrentStorageSize_run w :
  ImageStorage.getCurrentStorageSize w = (Val (logical_bytes (item w)), w).
Proof.
  unfold ImageStorage.getCurrentStorageSize. run. now rewrite getStoredImages_run.
Qed.

Lemma getActualStorageSize_run w :
  ImageStorage.getActualStorageSize w = (Val (bytes_of (item w)), w).
Proof.
  unfold ImageStorage.getActualStorageSize, localStorage_getItem. run.
  destruct (item w) as [[m|raw]|]; cbn; try reflexivity.
  destruct raw; reflexivity.
Qed.

Section Runs.
Variable env : Env.

Lemma writeWith_run img w :
  ImageStorage.writeWith env img w =
  let m := JS.set_prop (originalUrl img) img (images_of (item w)) in
  match medium env (writes w) (Stringified m) with
  | Written => (Val true, with_item (Some (Stringified m)) (count_write w))
  | QuotaExceeded => (Raise QuotaExceededError, count_write w)
  | Refused => (Raise StorageError, count_write w)
  end.
Proof.
  unfold ImageStorage.writeWith. run. rewrite getStoredImages_run.
  unfold localStorage_setItem. cbn.
  now destruct (medium env (writes w) _).
Qed.

(** A guarded attempt either wrote the extended map or goes on. *)
Lemma try_writeWith img (k : M bool) w :
  try (ImageStorage.writeWith env img) (fun _ => k) w =
  match Spec.attempt env img w with
  | (true, w') => (Val true, w')
  | (false, w') => k w'
  end.
Proof.
  unfold try, Spec.attempt. rewrite writeWith_run. cbn.
  now destruct (medium env (writes w) _).
Qed.

Lemma cleanupOldImages_run maxAge w :
  ImageStorage.cleanupOldImages env maxAge w =
  (Val tt,
   let m := images_of (item w) in
   let old := Spec.olderThan (clock env (ticks w)) maxAge in
   if existsb old m
   then Spec.persist env (Spec.without (filter old m) m) (count_tick w)
   else count_tick w).
Proof.
  unfold ImageStorage.cleanupOldImages. run. rewrite getStoredImages_run.
  unfold Date_now, JS.entries. rewrite ageLoop_without. cbn [orb].
  destruct (existsb _ _); [|reflexivity].
  unfold localStorage_setItem, Spec.persist. cbn.
  now destruct (medium env (writes w) _).
Qed.

Lemma freeUpSpace_run target w :
  ImageStorage.freeUpSpace env target w =
  (Val tt,
   let m := images_of (item w) in
   match Spec.victims target m with
   | [] => w
   | vs => Spec.persist env (Spec.without vs m) w
   end).
Proof.
  unfold ImageStorage.freeUpSpace. run. rewrite getStoredImages_run.
  rewrite freeLoop_without. cbn [orb]. unfold Spec.victims.
  destruct (Spec.minimalPrefix _ _ _) as [|v vs]; [reflexivity|].
  cbn [List.length Nat.eqb negb].
  unfold localStorage_setItem, Spec.persist.
  now destruct (medium env (writes w) _).
Qed.

(** *** Evictions read as the specification words them *)

Lemma cleanupOldImages_evictStep maxAge w :
  well_formed w ->
  ImageStorage.cleanupOldImages env maxAge w =
  (Val tt, Spec.evictStep env (Spec.evictOlderThan (clock env (ticks w)) maxAge)
                          (count_tick w)).
Proof.
  intros WF. apply distinct_NoDup in WF.
  rewrite cleanupOldImages_run. unfold Spec.evictStep. cbn [item count_tick].
  cbv zeta. rewrite without_old by assumption.
  replace (List.length (Spec.evictOlderThan _ _ _) <? _)%nat
    with (existsb (Spec.olderThan (clock env (ticks w)) maxAge) (images_of (item w)));
    [reflexivity|].
  unfold Spec.evictOlderThan.
  etransitivity; [|symmetry; apply filter_length_lt].
  apply existsb_forallb.
Qed.

Lemma victims_In target (m : Images) kv :
  In kv (Spec.victims target m) -> In kv m.
Proof.
  unfold Spec.victims, JS.entries. intros I.
  destruct (minimalPrefix_prefix target (JS.sort ImageStorage.bySizeThenAge m) 0)
    as [rest E].
  eapply Permutation_in; [apply sort_perm|]. rewrite E. apply in_or_app. now left.
Qed.

Lemma freeUpSpace_evictStep target w :
  ImageStorage.freeUpSpace env target w =
  (Val tt, Spec.evictStep env (Spec.evictLargest target) w).
Proof.
  rewrite freeUpSpace_run. unfold Spec.evictStep, Spec.evictLargest. cbv zeta.
  set (m := images_of (item w)).
  destruct (Spec.victims target m) as [|v vs] eqn:V.
  - now rewrite without_nil, Nat.ltb_irrefl.
  - replace (List.length (Spec.without (v :: vs) m) <? _)%nat with true;
      [reflexivity|].
    symmetry. unfold Spec.without.
    etransitivity; [apply filter_length_lt|].
    assert (I : In v m) by (apply (victims_In target); rewrite V; now left).
    apply negb_true_iff, not_true_is_false. intros F.
    rewrite forallb_forall in F. specialize (F v I).
    cbn in F. now rewrite String.eqb_refl in F.
Qed.

End Runs.

(* ===================================================================== *)
(** ** Evictions, step by step *)
(* ===================================================================== *)

Section Steps.
Variable env : Env.

Lemma steps_one w w' : step env w w' -> steps env w w'.
Proof. intros H. eapply steps_next; [exact H | constructor]. Qed.

Lemma steps_trans w1 w2 w3 : steps env w1 w2 -> steps env w2 w3 -> steps env w1 w3.
Proof. induction 1; [auto | intros; eapply steps_next; eauto]. Qed.

Lemma persist_item m w :
  item (Spec.persist env m w) = item w \/
  (medium env (writes w) (Stringified m) = Written /\
   item (Spec.persist env m w) = Some (Stringified m)).
Proof.
  unfold Spec.persist. destruct (medium env (writes w) _) eqn:E; cbn; auto.
Qed.

Lemma persist_frame m w :
  fetched (Spec.persist env m w) = fetched w /\
  reads (Spec.persist env m w) = reads w /\
  ticks (Spec.persist env m w) = ticks w /\
  writes (Spec.persist env m w) = S (writes w).
Proof. unfold Spec.persist. destruct (medium env (writes w) _); cbn; auto. Qed.

Lemma get_prop_without_None k vs (m : Images) :
  JS.get_prop k m = None -> JS.get_prop k (Spec.without vs m) = None.
Proof. apply get_prop_filter_None. Qed.

Lemma step_shrunk w w' : step env w w' -> shrunk w w'.
Proof.
  destruct 1 as [w|w|vs w]; unfold shrunk, cached; cbn; auto.
  destruct (persist_frame (Spec.without vs (images_of (item w))) w) as (-> & -> & _).
  repeat split. intros url H.
  destruct (persist_item (Spec.without vs (images_of (item w))) w) as [->|[_ ->]];
    [assumption|]. cbn. now apply get_prop_without_None.
Qed.

Lemma steps_shrunk w w' : steps env w w' -> shrunk w w'.
Proof.
  induction 1 as [w|w w1 w2 S _ IH].
  - unfold shrunk; auto.
  - apply step_shrunk in S. destruct S as (F & R & C), IH as (F' & R' & C').
    unfold shrunk. rewrite F', R'. auto.
Qed.


Lemma step_well_formed w w' : step env w w' -> well_formed w -> well_formed w'.
Proof.
  unfold well_formed. destruct 1 as [w|w|vs w]; cbn; auto.
  destruct (persist_item (Spec.without vs (images_of (item w))) w) as [->|[_ ->]];
    [auto|]. cbn. rewrite !distinct_NoDup. apply NoDup_keys_filter.
Qed.

Lemma steps_well_formed w w' : steps env w w' -> well_formed w -> well_formed w'.
Proof. induction 1; eauto using step_well_formed. Qed.

Lemma evictKeys_steps vs w :
  steps env w (match vs with
               | [] => w
               | _ => Spec.persist env (Spec.without vs (images_of (item w))) w
               end).
Proof. destruct vs; [constructor | apply steps_one; constructor]. Qed.

Lemma cleanupOldImages_steps maxAge w :
  exists w', ImageStorage.cleanupOldImages env maxAge w = (Val tt, w') /\
             steps env w w'.
Proof.
  rewrite cleanupOldImages_run. eexists. split; [reflexivity|]. cbv zeta.
  eapply steps_next; [apply step_tick|].
  destruct (existsb _ _); [|constructor].
  apply steps_one.
  exact (step_evict env _ (count_tick w)).
Qed.

Lemma freeUpSpace_steps target w :
  exists w', ImageStorage.freeUpSpace env target w = (Val tt, w') /\
             steps env w w'.
Proof.
  rewrite freeUpSpace_run. eexists. split; [reflexivity|]. cbv zeta.
  destruct (Spec.victims _ _); [constructor | apply steps_one; constructor].
Qed.

Lemma attempt_false img w w' :
  Spec.attempt env img w = (false, w') -> step env w w'.
Proof.
  unfold Spec.attempt. destruct (medium env (writes w) _); intros [= <-];
    constructor.
Qed.

Lemma attempt_true img w w' :
  Spec.attempt env img w = (true, w') ->
  let m := JS.set_prop (originalUrl img) img (images_of (item w)) in
  medium env (writes w) (Stringified m) = Written /\
  w' = with_item (Some (Stringified m)) (count_write w).
Proof.
  unfold Spec.attempt. destruct (medium env (writes w) _); intros [= <-]; auto.
Qed.

(** [storeImage] never raises: it answers [true] after a write of the map
    with the new entry, possibly after evictions, or [false] after
    evictions only. *)
Lemma storeImage_cases img w :
  exists b w', ImageStorage.storeImage env img w = (Val b, w') /\
    ((b = false /\ steps env w w') \/
     (b = true /\ exists w0, steps env w w0 /\ Spec.attempt env img w0 = (true, w'))).
Proof.
  unfold ImageStorage.storeImage.
  unfold try at 1. rewrite writeWith_run. cbv zeta.
  destruct (medium env (writes w) _) eqn:E1.
  - exists true. eexists. split; [reflexivity|]. right. split; [reflexivity|].
    exists w. split; [constructor|]. unfold Spec.attempt. now rewrite E1.
  - (* the ladder *)
    unfold bind at 1.
    destruct (cleanupOldImages_steps (3 * 24 * 60 * 60 * 1000) (count_write w))
      as (w1 & -> & S1).
    assert (T1 : steps env w w1)
      by (eapply steps_next; [apply step_refused | exact S1]).
    rewrite try_writeWith.
    destruct (Spec.attempt env img w1) as [[|] w1'] eqn:A1.
    { exists true, w1'. split; [reflexivity|]. right. eauto. }
    assert (T1' : steps env w w1')
      by (eapply steps_trans; [exact T1 | apply steps_one, (attempt_false _ _ _ A1)]).
    unfold bind at 1.
    destruct (freeUpSpace_steps
                (inject_Z (Z.max (size img * 2) (10 * 1024 * 1024))) w1')
      as (w2 & -> & S2).
    assert (T2 : steps env w w2) by (eapply steps_trans; eassumption).
    rewrite try_writeWith.
    destruct (Spec.attempt env img w2) as [[|] w2'] eqn:A2.
    { exists true, w2'. split; [reflexivity|]. right. eauto. }
    assert (T2' : steps env w w2')
      by (eapply steps_trans; [exact T2 | apply steps_one, (attempt_false _ _ _ A2)]).
    unfold bind at 1.
    destruct (cleanupOldImages_steps (24 * 60 * 60 * 1000) w2') as (w3 & -> & S3).
    assert (T3 : steps env w w3) by (eapply steps_trans; eassumption).
    rewrite try_writeWith.
    destruct (Spec.attempt env img w3) as [[|] w3'] eqn:A3.
    { exists true, w3'. split; [reflexivity|]. right. eauto. }
    exists false, w3'. split; [reflexivity|]. left. split; [reflexivity|].
    eapply steps_trans; [exact T3 | apply steps_one, (attempt_false _ _ _ A3)].
  - exists false. eexists. split; [reflexivity|]. left. split; [reflexivity|].
    apply steps_one. constructor.
Qed.

Lemma performMaintenanceCleanup_steps w :
  exists w', ImageStorage.performMaintenanceCleanup env w = (Val tt, w') /\
             steps env w w' /\
             (bytes_of (item w) <= 41943040 -> w' = w).
Proof.
  unfold ImageStorage.performMaintenanceCleanup.
  change (F64.mul (inject_Z ImageStorage.MAX_STORAGE_SIZE) (F64.literal 8 1))
    with threshold80.
  unfold try, bind at 1. rewrite getActualStorageSize_run. rewrite gt_80.
  destruct (Z.leb_spec (bytes_of (item w)) 41943040) as [L|L]; cbn [negb].
  { exists w. split; [reflexivity|]. split; [constructor | auto]. }
  unfold bind at 1.
  destruct (cleanupOldImages_steps (7 * 24 * 60 * 60 * 1000) w) as (w1 & -> & S1).
  unfold bind at 1. rewrite getActualStorageSize_run.
  unfold bind at 1. rewrite gt_80.
  assert (exists w2,
    (if negb (bytes_of (item w1) <=? 41943040)
     then ImageStorage.cleanupOldImages env (3 * 24 * 60 * 60 * 1000)
     else ret tt) w1 = (Val tt, w2) /\ steps env w1 w2) as (w2 & -> & S2).
  { destruct (negb _).
    - apply cleanupOldImages_steps.
    - exists w1. split; [reflexivity | constructor]. }
  unfold bind at 1. rewrite getActualStorageSize_run. rewrite gt_80.
  assert (exists w3,
    (if negb (bytes_of (item w2) <=? 41943040)
     then ImageStorage.freeUpSpace env
            (F64.sub (inject_Z (bytes_of (item w2)))
               (F64.mul (inject_Z ImageStorage.MAX_STORAGE_SIZE) (F64.literal 6 1)))
     else ret tt) w2 = (Val tt, w3) /\ steps env w2 w3) as (w3 & -> & S3).
  { destruct (negb _).
    - apply freeUpSpace_steps.
    - exists w2. split; [reflexivity | constructor]. }
  exists w3. split; [reflexivity|]. split; [|lia].
  eapply steps_trans; [exact S1|]. eapply steps_trans; eassumption.
Qed.

End Steps.

(* ===================================================================== *)
(** ** Download and resolve, run *)
(* ===================================================================== *)

Section Resolve.
Variable env : Env.

Lemma fetchBlob_run url w :
  ImageStorage.fetchBlob env url w =
  (Val match network env (List.length (fetched w)) url with
       | Rejected => None
       | Responded r =>
           if negb (ok r) then None
           else match body r with
                | None => None
                | Some blob =>
                    if logical_bytes (item w) + blob_size blob
                       >? ImageStorage.MAX_STORAGE_SIZE
                    then None
                    else Some (blob,
                               if JS.truthy (blob_type blob) then blob_type blob
                               else "image/png"%string,
                               blob_size blob)
                end
       end,
   count_fetch url w).
Proof.
  unfold ImageStorage.fetchBlob, fetch. run.
  destruct (network env _ url) as [|r]; [reflexivity|].
  destruct (ok r); cbn; [|reflexivity].
  unfold Response_blob. destruct (body r) as [blob|]; cbn; [|reflexivity].
  rewrite getCurrentStorageSize_run. cbn [item count_fetch].
  now destruct (_ >? _).
Qed.

Lemma downloadImageAsDataUrl_run url w :
  ImageStorage.downloadImageAsDataUrl env url w =
  match fst (ImageStorage.fetchBlob env url w) with
  | Val (Some (blob, contentType, size)) =>
      match fileReader env blob with
      | Loaded dataUrl =>
          (Val (Some {| originalUrl := url; localDataUrl := dataUrl;
                        contentType := contentType; size := size;
                        downloadedAt := clock env (ticks w) |}),
           count_tick (count_read (count_fetch url w)))
      | ReadFailed => (Raise ReadError, count_read (count_fetch url w))
      end
  | _ => (Val None, count_fetch url w)
  end.
Proof.
  unfold ImageStorage.downloadImageAsDataUrl. unfold bind at 1.
  rewrite fetchBlob_run. cbn [fst].
  destruct (match network env _ url with Rejected => _ | Responded _ => _ end)
    as [[[blob ct] sz]|]; [|reflexivity].
  unfold bind, FileReader_readAsDataURL, Date_now, ret.
  now destruct (fileReader env blob).
Qed.

Lemma resolve_hit url e w :
  cached url w = Some e ->
  ImageStorage.downloadAndStoreImage env url w = (Val (localDataUrl e), w).
Proof.
  intros H. unfold ImageStorage.downloadAndStoreImage. run.
  now rewrite getStoredImage_run, H.
Qed.

(** On a miss, maintenance runs first, the download starts from the world
    it leaves, and the outcome of [storeImage] does not reach the result. *)
Lemma resolve_miss url w :
  cached url w = None ->
  ImageStorage.downloadAndStoreImage env url w =
  let w1 := snd (ImageStorage.performMaintenanceCleanup env w) in
  match ImageStorage.downloadImageAsDataUrl env url w1 with
  | (Val (Some img), w2) =>
      (Val (localDataUrl img), snd (ImageStorage.storeImage env img w2))
  | (_, w2) => (Val url, w2)
  end.
Proof.
  intros H. unfold ImageStorage.downloadAndStoreImage. unfold try, bind at 1.
  rewrite getStoredImage_run, H. unfold bind at 1.
  destruct (performMaintenanceCleanup_steps env w) as (w1 & -> & _). cbn [snd].
  unfold bind at 1.
  destruct (ImageStorage.downloadImageAsDataUrl env url w1) as [[[img|]|e] w2];
    try reflexivity.
  unfold bind.
  destruct (storeImage_cases env img w2) as (b & w3 & -> & _). cbn [snd].
  now destruct b.
Qed.

(** The three ways a download ends. *)
Lemma download_cases url w :
  (exists r blob dataUrl,
     network env (List.length (fetched w)) url = Responded r /\
     ok r = true /\ body r = Some blob /\
     logical_bytes (item w) + blob_size blob <= ImageStorage.MAX_STORAGE_SIZE /\
     fileReader env blob = Loaded dataUrl /\
     ImageStorage.downloadImageAsDataUrl env url w =
     (Val (Some {| originalUrl := url; localDataUrl := dataUrl;
                   contentType := if JS.truthy (blob_type blob) then blob_type blob
                                  else "image/png"%string;
                   size := blob_size blob;
                   downloadedAt := clock env (ticks w) |}),
      count_tick (count_read (count_fetch url w)))) \/
  ImageStorage.downloadImageAsDataUrl env url w = (Val None, count_fetch url w) \/
  ImageStorage.downloadImageAsDataUrl env url w =
    (Raise ReadError, count_read (count_fetch url w)).
Proof.
  rewrite downloadImageAsDataUrl_run, fetchBlob_run. cbn [fst].
  destruct (network env _ url) as [|r] eqn:N; [auto|].
  destruct (ok r) eqn:O; cbn [negb]; [|auto].
  destruct (body r) as [blob|] eqn:B; [|auto].
  destruct (Z.gtb_spec (logical_bytes (item w) + blob_size blob)
                       ImageStorage.MAX_STORAGE_SIZE) as [G|G]; [auto|].
  destruct (fileReader env blob) as [|dataUrl] eqn:R; [auto|].
  left. exists r, blob, dataUrl. repeat split; auto.
Qed.

End Resolve.

(* ===================================================================== *)
(** ** Resolve: failure, budget, persistence *)
(* ===================================================================== *)



(** C2, amended.  [ImageMigration.processGeneration] tests [isRemoteUrl]
    before it calls the store: an image whose URL is absent, empty or does
    not start with [http://] or [https://] is returned as it is, and the
    world is untouched, so nothing is fetched. *)
Theorem processImage_skips_local (env : Env) (image : ImageMigration.Image) (w : World) :
  match ImageMigration.url image with
  | Some u => ImageMigration.isRemoteUrl u = false
  | None => True
  end ->
  ImageMigration.processImage env image w = (Val image, w).
Proof.
  unfold ImageMigration.processImage.
  destruct (ImageMigration.url image) as [u|]; [|reflexivity].
  intros ->. now rewrite orb_true_r.
Qed.

Lemma processImage_skips_local_witness :
  ImageMigration.processImage Sample.online Sample.embeddedImage Sample.fresh
  = (Val Sample.embeddedImage, Sample.fresh).
Proof.
  apply (processImage_skips_local Sample.online Sample.embeddedImage Sample.fresh).
  reflexivity.
Defined.

(** [downloadAndStoreImage] itself has no such test: given a string that
    does not start with [http://] or [https://] and is not in the store,
    it fetches it, and returns what was read from the answer. *)
Lemma resolve_local_input_counterexample :
  ImageMigration.isRemoteUrl Sample.localPath = false /\
  (exists w',
     ImageStorage.downloadAndStoreImage Sample.online Sample.localPath Sample.fresh
     = (Val Sample.dataUrl, w') /\ fetched w' = [Sample.localPath]) /\
  ~ (exists w',
       ImageStorage.downloadAndStoreImage Sample.online Sample.localPath Sample.fresh
       = (Val Sample.localPath, w') /\ fetched w' = fetched Sample.fresh).
Proof.
  split; [reflexivity|]. split.
  - eexists. split; vm_compute; reflexivity.
  - intros (w' & E & _). vm_compute in E. discriminate E.
Qed.





(* ===================================================================== *)
(** ** Resolve twice *)
(* ===================================================================== *)





(* ===================================================================== *)
(** ** Statistics *)
(* ===================================================================== *)

Lemma getStorageStats_run w :
  ImageStorage.getStorageStats w =
  (Val (let images := JS.values (images_of (item w)) in
        let sorted := JS.sort ImageStorage.byDownloadedAt images in
        {| ImageStorage.imageCount := Z.of_nat (List.length images);
           ImageStorage.totalSize := logical_bytes (item w);
           ImageStorage.totalSizeMB :=
             F64.parseFloat
               (F64.toFixed 2 (F64.div (inject_Z (logical_bytes (item w)))
                                       (inject_Z (1024 * 1024))));
           ImageStorage.actualStorageSize := bytes_of (item w);
           ImageStorage.actualStorageSizeMB :=
             F64.parseFloat
               (F64.toFixed 2 (F64.div (inject_Z (bytes_of (item w)))
                                       (inject_Z (1024 * 1024))));
           ImageStorage.storageUsagePercent :=
             F64.parseFloat
               (F64.toFixed 1
                  (F64.mul (F64.div (inject_Z (bytes_of (item w)))
                                    (inject_Z ImageStorage.MAX_STORAGE_SIZE))
                           (inject_Z 100)));
           ImageStorage.oldestImage := option_map downloadedAt (hd_error sorted);
           ImageStorage.newestImage :=
             option_map downloadedAt (last (map Some sorted) None) |}),
   w).
Proof.
  unfold ImageStorage.getStorageStats. run.
  rewrite getStoredImages_run, getActualStorageSize_run. reflexivity.
Qed.

Section Usage.
Import F64.

(** The percentage that [getStorageStats] derives from a byte count, in
    tenths: the digits of [toFixed(1)]. *)
Lemma usage_tenths_nearest (a : Z) :
  0 <= a < 2 ^ 48 ->
  let n := units (toFixed 1 (mul (div (inject_Z a)
                                      (inject_Z ImageStorage.MAX_STORAGE_SIZE))
                                 (inject_Z 100))) in
  0 <= n /\ - 2 ^ 17 <= n * 2 ^ 18 - 5 * a <= 2 ^ 17.
Proof.
  intros [Ha0 Ha] n. subst n. unfold mul, div, toFixed. cbn [units].
  destruct (Z.eq_dec a 0) as [->|Hne].
  { vm_compute. repeat split; discriminate. }
  set (A := inject_Z a).
  assert (HA : (0 < A)%Q)
    by (unfold A; change 0%Q with (inject_Z 0); rewrite <- Zlt_Qlt; lia).
  assert (HA' : (A < inject_Z (2 ^ 48))%Q) by (unfold A; now rewrite <- Zlt_Qlt).
  change (inject_Z (2 ^ 48)) with (281474976710656 # 1) in HA'.
  change (inject_Z ImageStorage.MAX_STORAGE_SIZE) with (52428800 # 1).
  assert (Q : (A / (52428800 # 1) == A * (1 # 52428800))%Q) by field.
  set (q := (A / (52428800 # 1))%Q) in *.
  assert (Hq : (0 < q)%Q) by lra.
  pose proof (fl_relative_error q Hq) as E1.
  apply Qabs_Qle_condition in E1.
  change (2 ^ 53)%positive with 9007199254740992%positive in E1.
  set (x1 := fl q) in *.
  change (inject_Z 100) with (100 # 1).
  assert (Hx1 : (0 < x1 * (100 # 1))%Q) by lra.
  pose proof (fl_relative_error (x1 * (100 # 1)) Hx1) as E2.
  apply Qabs_Qle_condition in E2.
  change (2 ^ 53)%positive with 9007199254740992%positive in E2.
  set (x2 := fl (x1 * (100 # 1))) in *.
  change (inject_Z (10 ^ Z.of_nat 1)) with (10 # 1).
  assert (Hx2 : (0 <= x2)%Q) by lra.
  apply Qle_bool_iff in Hx2. rewrite Hx2.
  set (n := Qfloor (x2 * (10 # 1) + (1 # 2))).
  pose proof (Qfloor_le (x2 * (10 # 1) + (1 # 2))) as F1.
  pose proof (Qlt_floor (x2 * (10 # 1) + (1 # 2))) as F2.
  fold n in F1, F2. rewrite inject_Z_plus in F2.
  change (inject_Z 1) with (1 # 1) in F2.
  set (N := inject_Z n) in *.
  assert (G0 : (inject_Z (-1) < N)%Q) by (change (inject_Z (-1)) with (-1 # 1); lra).
  assert (G1 : (inject_Z (n * 2 ^ 18 - 5 * a - 2 ^ 17 - 1) < inject_Z 0)%Q).
  { unfold Z.sub.
    repeat (rewrite inject_Z_plus || rewrite inject_Z_opp || rewrite inject_Z_mult).
    fold N A. change (inject_Z (2 ^ 18)) with (262144 # 1).
    change (inject_Z (2 ^ 17)) with (131072 # 1).
    change (inject_Z 5) with (5 # 1). change (inject_Z 1) with (1 # 1).
    change (inject_Z 0) with (0 # 1). lra. }
  assert (G2 : (inject_Z (- 2 ^ 17 - 1) < inject_Z (n * 2 ^ 18 - 5 * a))%Q).
  { unfold Z.sub.
    repeat (rewrite inject_Z_plus || rewrite inject_Z_opp || rewrite inject_Z_mult).
    fold N A. change (inject_Z (2 ^ 18)) with (262144 # 1).
    change (inject_Z (2 ^ 17)) with (131072 # 1).
    change (inject_Z 5) with (5 # 1). change (inject_Z 1) with (1 # 1).
    lra. }
  unfold N in G0. rewrite <- Zlt_Qlt in G0, G1, G2. lia.
Qed.



End Usage.

(** C10.  [getStorageStats] returns without raising and leaves the world,
    and with it the text stored under ['fal_local_images'], as it was.  The
    percentage it reports is [toFixed(1)] of the bytes of that text over
    the budget times 100: its tenths differ from the exact percentage by
    at most half a tenth.  On a store that is empty, cleared or holding the
    empty map, the count is 0, the percentage is 0 and both timestamps are
    [null]. *)
Theorem getStorageStats_reads_only (w : World) :
  exists st,
    ImageStorage.getStorageStats w = (Val st, w) /\
    (exists tenths,
       ImageStorage.storageUsagePercent st
       = F64.parseFloat {| F64.places := 1; F64.units := tenths |} /\
       (bytes_of (item w) < 2 ^ 48 ->
        (Qabs (inject_Z tenths / 10
               - inject_Z (bytes_of (item w)) * 100 / 52428800) <= 1 # 20)%Q)) /\
    (item w = None \/ item w = Some (Stringified []) ->
     ImageStorage.imageCount st = 0 /\
     ImageStorage.storageUsagePercent st = 0%Q /\
     ImageStorage.oldestImage st = None /\
     ImageStorage.newestImage st = None) /\
    item (snd (ImageStorage.clearAllImages w)) = None.
Proof.
  rewrite getStorageStats_run. eexists. split; [reflexivity|]. cbv zeta.
  cbn [ImageStorage.storageUsagePercent ImageStorage.imageCount
       ImageStorage.oldestImage ImageStorage.newestImage].
  split; [|split; [|reflexivity]].
  - assert (H0 : 0 <= bytes_of (item w)).
    { unfold bytes_of, JS.byteLength. destruct (item w); lia. }
    set (a := bytes_of (item w)) in *.
    set (fx := F64.toFixed 1 _).
    exists (F64.units fx). split; [reflexivity|]. intros Hb.
    pose proof (usage_tenths_nearest a (conj H0 Hb)) as [_ H]. fold fx in H.
    set (n := F64.units fx) in *. clearbody n. clear fx.
    apply Qabs_Qle_condition.
    assert (G1 : (inject_Z (5 * a) <= inject_Z (n * 2 ^ 18 + 2 ^ 17))%Q)
      by (rewrite <- Zle_Qle; lia).
    assert (G2 : (inject_Z (n * 2 ^ 18) <= inject_Z (5 * a + 2 ^ 17))%Q)
      by (rewrite <- Zle_Qle; lia).
    rewrite ?inject_Z_plus, ?inject_Z_mult in G1, G2.
    change (inject_Z (2 ^ 18)) with (262144 # 1) in *.
    change (inject_Z (2 ^ 17)) with (131072 # 1) in *.
    change (inject_Z 5) with (5 # 1) in *.
    set (N := inject_Z n) in *. set (A := inject_Z a) in *.
    assert (E1 : (N / 10 == N * (1 # 10))%Q) by field.
    assert (E2 : (A * 100 / 52428800 == A * (100 # 52428800))%Q) by field.
    set (X := (N / 10)%Q) in *. set (Y := (A * 100 / 52428800)%Q) in *. lra.
  - intros [-> | ->]; vm_compute; auto.
Qed.

(* ===================================================================== *)
(** ** A text that does not parse *)
(* ===================================================================== *)




(* ===================================================================== *)
(** ** The eviction policy *)
(* ===================================================================== *)

Lemma victims_by_key (target : Q) (m : Images) kv :
  NoDup (JS.keys m) -> In kv m ->
  (In (fst kv) (JS.keys (Spec.victims target m)) <-> In kv (Spec.victims target m)).
Proof.
  intros ND I. split.
  - unfold JS.keys. intros K. apply in_map_iff in K as ([k v] & E & K).
    cbn in E. destruct kv as [k' v']. cbn in E. subst k'.
    pose proof (victims_In target m _ K) as I'.
    now rewrite (NoDup_keys_unique m k v' v ND I I').
  - intros K. unfold JS.keys. apply in_map_iff. eauto.
Qed.

(** C6.  [freeUpSpace], on a store holding the map [m] and for a target
    [target]: the entries are visited in an order that is a rearrangement
    of the entries, by size descending and, among equal sizes, by
    [downloadedAt] ascending; the entries removed are an initial segment
    of that order; its sizes add up to the target or more, or it is the
    whole order; no shorter initial segment adds up to the target; the
    map written back is [m] without exactly these entries, and it is
    written only when there is such an entry; a write the medium does not
    take leaves the store as it was ([Spec.persist]).  Entries equal in
    size and age are visited in the order of the map. *)
Theorem freeUpSpace_evicts_minimal_prefix
        (env : Env) (target : Q) (w : World) (m : Images) :
  item w = Some (Stringified m) ->
  distinct (JS.keys m) = true ->
  let order := JS.sort ImageStorage.bySizeThenAge (JS.entries m) in
  let vs := Spec.victims target m in
  Permutation order m /\
  StronglySorted Spec.evictsBefore order /\
  (exists rest, order = vs ++ rest) /\
  ((target <= inject_Z (Spec.sumSizes vs))%Q \/ vs = order) /\
  (forall p q, vs = p ++ q -> q <> [] ->
               ~ (target <= inject_Z (Spec.sumSizes p))%Q) /\
  (forall kv, In kv (Spec.without vs m) <-> In kv m /\ ~ In kv vs) /\
  (forall sz t,
     let same kv := (size (snd kv) =? sz) && (downloadedAt (snd kv) =? t) in
     filter same order = filter same m) /\
  ImageStorage.freeUpSpace env target w =
  (Val tt, match vs with
           | [] => w
           | _ => Spec.persist env (Spec.without vs m) w
           end).
Proof.
  intros H ND order vs. apply distinct_NoDup in ND.
  split; [apply sort_perm|].
  split; [apply eviction_order_sorted|].
  split; [apply minimalPrefix_prefix|].
  split; [apply (minimalPrefix_reaches target order 0)|].
  split.
  { intros p q E Hq. apply (minimalPrefix_minimal target order 0 p q E Hq). }
  split.
  { intros kv. rewrite without_In. split; intros [I K]; split; try assumption.
    - intros V. apply K. now apply victims_by_key.
    - intros V. apply K. now apply (victims_by_key target m kv ND I). }
  split; [intros sz t; apply eviction_order_stable|].
  rewrite freeUpSpace_run, H. cbn [images_of]. fold vs. now destruct vs.
Qed.

Lemma freeUpSpace_evicts_minimal_prefix_witness :
  Spec.victims 5 [Sample.A; Sample.B; Sample.C] = [Sample.A] /\
  ImageStorage.freeUpSpace Sample.online 5
    (Sample.holding [Sample.A; Sample.B; Sample.C])
  = (Val tt, count_write (Sample.holding [Sample.B; Sample.C])).
Proof.
  split; [vm_compute; reflexivity|].
  pose proof (freeUpSpace_evicts_minimal_prefix Sample.online 5
                (Sample.holding [Sample.A; Sample.B; Sample.C])
                [Sample.A; Sample.B; Sample.C] eq_refl eq_refl) as H.
  cbv zeta in H. destruct H as (_ & _ & _ & _ & _ & _ & _ & H).
  rewrite H. vm_compute. reflexivity.
Defined.

(* ===================================================================== *)
(** ** Persist with retry *)
(* ===================================================================== *)

Section Ladder.
Variable env : Env.



End Ladder.



(* ===================================================================== *)
(** ** The size of the stored text *)
(* ===================================================================== *)

Lemma string_length_app (a b : string) :
  String.length (a ++ b) = (String.length a + String.length b)%nat.
Proof. induction a as [|c a IH]; cbn; [reflexivity | now rewrite IH]. Qed.

Lemma string_length_app_l (a b : string) :
  (String.length a <= String.length (a ++ b))%nat.
Proof. rewrite string_length_app. lia. Qed.

Lemma string_length_app_r (a b : string) :
  (String.length b <= String.length (a ++ b))%nat.
Proof. rewrite string_length_app. lia. Qed.

Lemma escape_char_length (c : ascii) : (1 <= String.length (JS.escape_char c))%nat.
Proof.
  unfold JS.escape_char.
  repeat match goal with |- context [if ?b then _ else _] => destruct b end;
    cbn; lia.
Qed.

Lemma escape_length (s : string) :
  (String.length s <= String.length (JS.escape s))%nat.
Proof.
  induction s as [|c s IH]; cbn; [lia|].
  rewrite string_length_app. pose proof (escape_char_length c). lia.
Qed.

(** An entry is written out with its embedded data in it. *)
Lemma stringify_entry_length kv :
  (String.length (localDataUrl (snd kv)) <= String.length (stringify_entry kv))%nat.
Proof.
  unfold stringify_entry, stringify_image.
  do 9 (etransitivity; [|apply string_length_app_r]).
  etransitivity; [|apply string_length_app_l].
  unfold JS.quote. cbn [String.length]. rewrite string_length_app.
  pose proof (escape_length (localDataUrl (snd kv))) as H.
  revert H. generalize (String.length (JS.escape (localDataUrl (snd kv)))).
  generalize (String.length (localDataUrl (snd kv))). intros; lia.
Qed.

Lemma join_cons_length (x : string) (l : list string) :
  String.length (JS.join "," (x :: l)) =
  (String.length x + match l with
                     | [] => 0
                     | _ => 1 + String.length (JS.join "," l)
                     end)%nat.
Proof.
  destruct l as [|y l]; cbn [JS.join]; [lia|].
  rewrite !string_length_app. reflexivity.
Qed.

(** Filtering a map shortens its text by at least the text of the entries
    that go. *)
Lemma join_filter_length (f : string * LocalImageData -> string)
      (p : string * LocalImageData -> bool) (m : Images) :
  (String.length (JS.join "," (map f (filter p m)))
   + list_sum (map (fun kv => String.length (f kv))
                   (filter (fun kv => negb (p kv)) m))
   <= String.length (JS.join "," (map f m)))%nat.
Proof.
  unfold list_sum. induction m as [|kv r IH]; [cbn; lia|].
  cbn [filter map]. rewrite (join_cons_length (f kv) (map f r)).
  destruct (p kv); cbn [negb map fold_right].
  - rewrite (join_cons_length (f kv) (map f (filter p r))).
    destruct r as [|kv' r']; [cbn; lia|].
    destruct (map f (filter p (kv' :: r'))) eqn:E; cbn [map] in *;
      rewrite ?E in IH;
      try change (String.length (JS.join "," [])) with 0%nat in IH; lia.
  - destruct r as [|kv' r']; [cbn; lia|]. cbn [map] in *. lia.
Qed.

Lemma text_bytes_filter (p : string * LocalImageData -> bool) (m : Images) :
  bytes_of (Some (Stringified (filter p m)))
  + Z.of_nat (list_sum (map (fun kv => String.length (stringify_entry kv))
                            (filter (fun kv => negb (p kv)) m)))
  <= bytes_of (Some (Stringified m)).
Proof.
  unfold bytes_of, text_string, JSON_stringify, JS.byteLength, JS.entries.
  repeat (rewrite string_length_app || cbn [String.length]).
  pose proof (join_filter_length stringify_entry p m). lia.
Qed.




(* ===================================================================== *)
(** ** Maintenance cleanup *)
(* ===================================================================== *)

Lemma Qle_bool_Qeq (s t x : Q) : (s == t)%Q -> Qle_bool s x = Qle_bool t x.
Proof.
  intros E. destruct (Qle_bool s x) eqn:S, (Qle_bool t x) eqn:T; try reflexivity.
  - apply Qle_bool_iff in S. rewrite E in S. apply Qle_bool_iff in S. congruence.
  - apply Qle_bool_iff in T. rewrite <- E in T. apply Qle_bool_iff in T. congruence.
Qed.

Lemma minimalPrefix_Qeq (s t : Q) l freed :
  (s == t)%Q -> Spec.minimalPrefix s l freed = Spec.minimalPrefix t l freed.
Proof.
  intros E. revert freed. induction l as [|kv r IH]; intros freed; cbn; [reflexivity|].
  rewrite (Qle_bool_Qeq s t _ E). now rewrite IH.
Qed.

Lemma evictLargest_Qeq (s t : Q) (m : Images) :
  (s == t)%Q -> Spec.evictLargest s m = Spec.evictLargest t m.
Proof.
  intros E. unfold Spec.evictLargest, Spec.victims.
  now rewrite (minimalPrefix_Qeq s t _ _ E).
Qed.

(** [finalSize - maxSize * 0.6] is computed without error. *)
Lemma targetReduction_exact (finalSize : Z) :
  0 <= finalSize < 2 ^ 53 ->
  (F64.sub (inject_Z finalSize) threshold60 == inject_Z (finalSize - 31457280))%Q.
Proof.
  intros H. rewrite threshold60_exact. unfold F64.sub.
  change (inject_Z finalSize - inject_Z 31457280)%Q
    with (inject_Z (finalSize * 1 + -31457280 * 1)).
  rewrite fl_integer by lia.
  replace (finalSize * 1 + -31457280 * 1) with (finalSize - 31457280) by lia.
  reflexivity.
Qed.

Section Maintenance.
Variable env : Env.

Lemma evictStep_frame keep w :
  fetched (Spec.evictStep env keep w) = fetched w /\
  reads (Spec.evictStep env keep w) = reads w /\
  ticks (Spec.evictStep env keep w) = ticks w.
Proof.
  unfold Spec.evictStep. cbv zeta. destruct (_ <? _)%nat; [|auto].
  destruct (persist_frame env (keep (images_of (item w))) w) as (-> & -> & -> & _).
  auto.
Qed.

(** An eviction leaves the text, or replaces the map by what it keeps. *)
Lemma evictStep_item keep w :
  item (Spec.evictStep env keep w) = item w \/
  exists m, item w = Some (Stringified m) /\
            item (Spec.evictStep env keep w) = Some (Stringified (keep m)) /\
            medium env (writes w) (Stringified (keep m)) = Written.
Proof.
  unfold Spec.evictStep. cbv zeta.
  destruct (Nat.ltb_spec (List.length (keep (images_of (item w))))
                         (List.length (images_of (item w)))) as [L|L]; [|auto].
  destruct (persist_item env (keep (images_of (item w))) w) as [E|[Wr E]]; [auto|].
  right. destruct (item w) as [[m|raw]|]; cbn in L; try lia.
  exists m. auto.
Qed.

Lemma evictStep_refused keep w :
  refuses_all env -> item (Spec.evictStep env keep w) = item w.
Proof.
  intros Hr. destruct (evictStep_item keep w) as [E|(m & _ & _ & Wr)];
    [assumption | now apply Hr in Wr].
Qed.

Lemma evictStep_filter keep w :
  (forall m, exists p, keep m = filter p m) ->
  bytes_of (item (Spec.evictStep env keep w)) <= bytes_of (item w) /\
  (well_formed w -> well_formed (Spec.evictStep env keep w)) /\
  (genuine w -> genuine (Spec.evictStep env keep w)).
Proof.
  intros K. unfold well_formed, genuine.
  destruct (evictStep_item keep w) as [->|(m & E & -> & _)]; [repeat split; auto; lia|].
  rewrite E. destruct (K m) as [p ->]. cbn [images_of]. split; [|split].
  - pose proof (text_bytes_filter p m). lia.
  - rewrite !distinct_NoDup. apply NoDup_keys_filter.
  - intros G. apply Forall_forall. intros kv I. apply filter_In in I as [I _].
    revert kv I. now apply Forall_forall.
Qed.

Lemma evictOlderThan_filters now maxAge :
  forall m : Images, exists p, Spec.evictOlderThan now maxAge m = filter p m.
Proof. intros m. eexists. reflexivity. Qed.

Lemma evictLargest_filters target :
  forall m : Images, exists p, Spec.evictLargest target m = filter p m.
Proof. intros m. eexists. reflexivity. Qed.

Lemma bytes_of_nonneg i : 0 <= bytes_of i.
Proof. unfold bytes_of, JS.byteLength. destruct i; lia. Qed.

(** [performMaintenanceCleanup] is the maintenance of the specification. *)
Lemma performMaintenanceCleanup_spec w :
  well_formed w ->
  bytes_of (item w) < 2 ^ 53 ->
  ImageStorage.performMaintenanceCleanup env w = (Val tt, Spec.maintenance env w).
Proof.
  intros WF B.
  unfold ImageStorage.performMaintenanceCleanup, Spec.maintenance.
  change (F64.mul (inject_Z ImageStorage.MAX_STORAGE_SIZE) (F64.literal 8 1))
    with threshold80.
  change (F64.mul (inject_Z ImageStorage.MAX_STORAGE_SIZE) (F64.literal 6 1))
    with threshold60.
  change (Spec.budget * 80 / 100) with 41943040.
  change (Spec.budget * 60 / 100) with 31457280.
  change (7 * DAY) with (7 * 24 * 60 * 60 * 1000).
  change (3 * DAY) with (3 * 24 * 60 * 60 * 1000).
  unfold try, bind at 1. rewrite getActualStorageSize_run, gt_80.
  destruct (bytes_of (item w) <=? 41943040); cbn [negb]; [reflexivity|].
  unfold bind at 1. rewrite (cleanupOldImages_evictStep env _ w WF).
  set (w1 := Spec.evictStep env _ (count_tick w)).
  destruct (evictStep_filter (Spec.evictOlderThan (clock env (ticks w))
                                (7 * 24 * 60 * 60 * 1000)) (count_tick w)
              (evictOlderThan_filters _ _)) as (B1 & WF1 & _).
  fold w1 in B1, WF1. specialize (WF1 WF). cbn [item count_tick] in B1.
  unfold bind at 1. rewrite getActualStorageSize_run.
  unfold bind at 1. rewrite gt_80.
  set (w2 := if bytes_of (item w1) <=? 41943040 then w1
             else Spec.evictStep env _ (count_tick w1)).
  assert (E2 : (if negb (bytes_of (item w1) <=? 41943040)
                then ImageStorage.cleanupOldImages env (3 * 24 * 60 * 60 * 1000)
                else ret tt) w1 = (Val tt, w2)).
  { unfold w2. destruct (bytes_of (item w1) <=? 41943040); cbn [negb]; [reflexivity|].
    apply (cleanupOldImages_evictStep env _ w1 WF1). }
  rewrite E2.
  assert (P2 : bytes_of (item w2) <= bytes_of (item w1) /\ well_formed w2).
  { unfold w2. destruct (bytes_of (item w1) <=? 41943040); [split; [lia | assumption]|].
    destruct (evictStep_filter (Spec.evictOlderThan (clock env (ticks w1))
                                  (3 * 24 * 60 * 60 * 1000)) (count_tick w1)
                (evictOlderThan_filters _ _)) as (B2 & WF2 & _).
    split; [exact B2 | exact (WF2 WF1)]. }
  destruct P2 as [B2 WF2].
  unfold bind at 1. rewrite getActualStorageSize_run, gt_80.
  destruct (bytes_of (item w2) <=? 41943040); cbn [negb]; [reflexivity|].
  rewrite freeUpSpace_evictStep.
  unfold Spec.evictStep. cbv zeta.
  pose proof (bytes_of_nonneg (item w2)) as N2.
  rewrite (evictLargest_Qeq _ _ _
             (targetReduction_exact (bytes_of (item w2)) ltac:(lia))).
  reflexivity.
Qed.





End Maintenance.



(** *** A store above the threshold *)

Lemma filler_length (n : N) : String.length (Sample.filler n) = N.to_nat n.
Proof.
  unfold Sample.filler. induction n as [|n IH] using N.peano_ind; [reflexivity|].
  rewrite N.iter_succ, N2Nat.inj_succ. cbn [String.length]. now rewrite IH.
Qed.

Lemma escape_filler (n : N) : JS.escape (Sample.filler n) = Sample.filler n.
Proof.
  unfold Sample.filler. induction n as [|n IH] using N.peano_ind; [reflexivity|].
  rewrite N.iter_succ. cbn [JS.escape]. rewrite IH. reflexivity.
Qed.

(** The length of the text of an entry, apart from its embedded data. *)
Lemma stringify_entry_bytes k (img : LocalImageData) :
  String.length (stringify_entry (k, img)) =
  (String.length
     (stringify_entry
        (k, {| originalUrl := originalUrl img; localDataUrl := EmptyString;
               contentType := contentType img; size := size img;
               downloadedAt := downloadedAt img |}))
   + String.length (JS.escape (localDataUrl img)))%nat.
Proof.
  unfold stringify_entry, stringify_image, JS.quote.
  cbn [fst snd originalUrl localDataUrl contentType size downloadedAt JS.escape].
  repeat (rewrite string_length_app || cbn [String.length String.append]).
  lia.
Qed.

Lemma congested_bytes : bytes_of (item Sample.congested) = 42000183.
Proof.
  unfold Sample.congested, Sample.holding, Sample.hugeEntry.
  cbn [item bytes_of text_string]. unfold JSON_stringify, JS.byteLength, JS.entries.
  cbn [map JS.join].
  rewrite !string_length_app, stringify_entry_bytes.
  cbn [localDataUrl originalUrl contentType size downloadedAt].
  rewrite escape_filler, filler_length.
  rewrite !Nat2Z.inj_add, N_nat_Z. reflexivity.
Qed.

(** On a medium that takes the writes, maintenance of this store evicts
    its entry, which is ten days old, and nothing is left. *)
Example maintenance_evicts_old :
  41943040 < bytes_of (item Sample.congested) /\
  item (Spec.maintenance Sample.online Sample.congested) = Some (Stringified []) /\
  ImageStorage.performMaintenanceCleanup Sample.online Sample.congested
  = (Val tt, Spec.maintenance Sample.online Sample.congested).
Proof.
  split; [rewrite congested_bytes; reflexivity|]. split.
  - unfold Spec.maintenance. rewrite congested_bytes.
    change (42000183 <=? Spec.budget * 80 / 100) with false. cbv iota.
    lazy -[Sample.filler]. reflexivity.
  - apply performMaintenanceCleanup_spec; [reflexivity|].
    rewrite congested_bytes. reflexivity.
Qed.



(* ===================================================================== *)
(** ** Sizes, effort and lookups *)
(* ===================================================================== *)

Lemma sum_sizes_fold (l : list LocalImageData) (a : Z) :
  fold_left (fun total img => total + size img) l a =
  a + fold_right (fun img total => size img + total) 0 l.
Proof.
  revert a. induction l as [|x r IH]; intros a; cbn; [lia|].
  rewrite IH. lia.
Qed.

Lemma logical_bytes_sum (m : Images) :
  logical_bytes (Some (Stringified m)) = Spec.sumSizes m.
Proof.
  unfold logical_bytes, Spec.sumSizes. cbn [images_of]. rewrite sum_sizes_fold.
  unfold JS.values. induction m as [|kv r IH]; cbn in *; lia.
Qed.

Lemma logical_bytes_images i :
  logical_bytes i = Spec.sumSizes (images_of i).
Proof.
  destruct i as [[m|raw]|]; try reflexivity. apply logical_bytes_sum.
Qed.

Lemma sumSizes_filter (p : string * LocalImageData -> bool) (m : Images) :
  Forall (fun kv => 0 <= size (snd kv)) m ->
  Spec.sumSizes (filter p m) <= Spec.sumSizes m.
Proof.
  unfold Spec.sumSizes.
  induction 1 as [|kv r H _ IH]; cbn; [lia|].
  destruct (p kv); cbn; lia.
Qed.

Lemma sumSizes_insert_index i k (v : LocalImageData) (m : Images) :
  Spec.sumSizes (JS.insert_index i k v m) = size v + Spec.sumSizes m.
Proof.
  unfold Spec.sumSizes.
  induction m as [|[k' v'] r IH]; cbn; [reflexivity|].
  destruct (JS.array_index k') as [j|]; [destruct (j <? i)%N|]; cbn; try reflexivity.
  cbn in IH. rewrite IH. lia.
Qed.

Lemma sumSizes_app (a b : Images) :
  Spec.sumSizes (a ++ b) = Spec.sumSizes a + Spec.sumSizes b.
Proof. unfold Spec.sumSizes. induction a as [|x r IH]; cbn in *; lia. Qed.

Lemma sumSizes_set_prop_new k (v : LocalImageData) (m : Images) :
  JS.get_prop k m = None ->
  Spec.sumSizes (JS.set_prop k v m) = Spec.sumSizes m + size v.
Proof.
  intros G. unfold JS.set_prop. rewrite G.
  destruct (JS.array_index k).
  - rewrite sumSizes_insert_index. lia.
  - rewrite sumSizes_app. cbn. lia.
Qed.

(* ---------- effort ---------- *)

Lemma within_refl w : within 0 0 w w.
Proof. unfold within. repeat split; lia. Qed.

Lemma within_trans n t n' t' w w1 w2 :
  within n t w w1 -> within n' t' w1 w2 -> within (n + n') (t + t') w w2.
Proof.
  unfold within. intros (F & R & W & T) (F' & R' & W' & T').
  rewrite F', R'. repeat split; auto; lia.
Qed.

Lemma within_weaken n t n' t' w w' :
  (n <= n')%nat -> (t <= t')%nat -> within n t w w' -> within n' t' w w'.
Proof. unfold within. intros Hn Ht (F & R & W & T). repeat split; auto; lia. Qed.

Section Effort.
Variable env : Env.

Lemma persist_within m w : within 1 0 w (Spec.persist env m w).
Proof.
  destruct (persist_frame env m w) as (F & R & T & W).
  unfold within. rewrite F, R, T, W. repeat split; lia.
Qed.

Lemma count_tick_within w : within 0 1 w (count_tick w).
Proof. unfold within. cbn. repeat split; lia. Qed.

Lemma count_write_within w : within 1 0 w (count_write w).
Proof. unfold within. cbn. repeat split; lia. Qed.

Lemma cleanupOldImages_within maxAge w :
  exists w', ImageStorage.cleanupOldImages env maxAge w = (Val tt, w') /\
             within 1 1 w w'.
Proof.
  rewrite cleanupOldImages_run. eexists. split; [reflexivity|]. cbv zeta.
  destruct (existsb _ _).
  - apply (within_trans 0 1 1 0 _ (count_tick w));
      [apply count_tick_within | apply persist_within].
  - apply (within_weaken 0 1); [lia | lia | apply count_tick_within].
Qed.

Lemma freeUpSpace_within target w :
  exists w', ImageStorage.freeUpSpace env target w = (Val tt, w') /\
             within 1 0 w w'.
Proof.
  rewrite freeUpSpace_run. eexists. split; [reflexivity|]. cbv zeta.
  destruct (Spec.victims _ _).
  - apply (within_weaken 0 0); [lia | lia | apply within_refl].
  - apply persist_within.
Qed.

Lemma attempt_within img w b w' :
  Spec.attempt env img w = (b, w') -> within 1 0 w w'.
Proof.
  unfold Spec.attempt. destruct (medium env (writes w) _); intros [= <- <-];
    unfold within; cbn; repeat split; lia.
Qed.

Lemma storeImage_within img w :
  exists b w', ImageStorage.storeImage env img w = (Val b, w') /\
               within 6 2 (count_write w) w'.
Proof.
  unfold ImageStorage.storeImage.
  unfold try at 1. rewrite writeWith_run. cbv zeta.
  destruct (medium env (writes w) _) eqn:E1.
  - exists true. eexists. split; [reflexivity|].
    unfold within; cbn; repeat split; lia.
  - unfold bind at 1.
    destruct (cleanupOldImages_within (3 * 24 * 60 * 60 * 1000) (count_write w))
      as (w1 & -> & T1).
    rewrite try_writeWith.
    destruct (Spec.attempt env img w1) as [[|] w1'] eqn:A1;
      pose proof (within_trans _ _ _ _ _ _ _ T1 (attempt_within _ _ _ _ A1)) as T1'.
    { exists true, w1'. split; [reflexivity|].
      eapply within_weaken; [| |exact T1']; lia. }
    unfold bind at 1.
    destruct (freeUpSpace_within
                (inject_Z (Z.max (size img * 2) (10 * 1024 * 1024))) w1')
      as (w2 & -> & S2).
    pose proof (within_trans _ _ _ _ _ _ _ T1' S2) as T2.
    rewrite try_writeWith.
    destruct (Spec.attempt env img w2) as [[|] w2'] eqn:A2;
      pose proof (within_trans _ _ _ _ _ _ _ T2 (attempt_within _ _ _ _ A2)) as T2'.
    { exists true, w2'. split; [reflexivity|].
      eapply within_weaken; [| |exact T2']; lia. }
    unfold bind at 1.
    destruct (cleanupOldImages_within (24 * 60 * 60 * 1000) w2') as (w3 & -> & S3).
    pose proof (within_trans _ _ _ _ _ _ _ T2' S3) as T3.
    rewrite try_writeWith.
    destruct (Spec.attempt env img w3) as [[|] w3'] eqn:A3;
      pose proof (within_trans _ _ _ _ _ _ _ T3 (attempt_within _ _ _ _ A3)) as T3'.
    { exists true, w3'. split; [reflexivity|].
      eapply within_weaken; [| |exact T3']; lia. }
    exists false, w3'. split; [reflexivity|].
    eapply within_weaken; [| |exact T3']; lia.
  - exists false. eexists. split; [reflexivity|].
    unfold within; cbn; repeat split; lia.
Qed.

Lemma performMaintenanceCleanup_within w :
  exists w', ImageStorage.performMaintenanceCleanup env w = (Val tt, w') /\
             within 3 2 w w'.
Proof.
  unfold ImageStorage.performMaintenanceCleanup.
  change (F64.mul (inject_Z ImageStorage.MAX_STORAGE_SIZE) (F64.literal 8 1))
    with threshold80.
  unfold try, bind at 1. rewrite getActualStorageSize_run. rewrite gt_80.
  destruct (Z.leb_spec (bytes_of (item w)) 41943040) as [L|L]; cbn [negb].
  { exists w. split; [reflexivity|].
    apply (within_weaken 0 0); [lia | lia | apply within_refl]. }
  unfold bind at 1.
  destruct (cleanupOldImages_within (7 * 24 * 60 * 60 * 1000) w) as (w1 & -> & S1).
  unfold bind at 1. rewrite getActualStorageSize_run.
  unfold bind at 1. rewrite gt_80.
  assert (exists w2,
    (if negb (bytes_of (item w1) <=? 41943040)
     then ImageStorage.cleanupOldImages env (3 * 24 * 60 * 60 * 1000)
     else ret tt) w1 = (Val tt, w2) /\ within 1 1 w1 w2) as (w2 & -> & S2).
  { destruct (negb _).
    - apply cleanupOldImages_within.
    - exists w1. split; [reflexivity|].
      apply (within_weaken 0 0); [lia | lia | apply within_refl]. }
  unfold bind at 1. rewrite getActualStorageSize_run. rewrite gt_80.
  assert (exists w3,
    (if negb (bytes_of (item w2) <=? 41943040)
     then ImageStorage.freeUpSpace env
            (F64.sub (inject_Z (bytes_of (item w2)))
               (F64.mul (inject_Z ImageStorage.MAX_STORAGE_SIZE) (F64.literal 6 1)))
     else ret tt) w2 = (Val tt, w3) /\ within 1 0 w2 w3) as (w3 & -> & S3).
  { destruct (negb _).
    - apply freeUpSpace_within.
    - exists w2. split; [reflexivity|].
      apply (within_weaken 0 0); [lia | lia | apply within_refl]. }
  exists w3. split; [reflexivity|].
  pose proof (within_trans _ _ _ _ _ _ _ (within_trans _ _ _ _ _ _ _ S1 S2) S3) as T.
  eapply within_weaken; [| |exact T]; lia.
Qed.

End Effort.


(* ---------- budget ---------- *)

Section Budget.
Variable env : Env.

Lemma step_sizes w w' :
  step env w w' -> sizes_nonneg w ->
  sizes_nonneg w' /\ logical_bytes (item w') <= logical_bytes (item w).
Proof.
  unfold sizes_nonneg.
  destruct 1 as [w|w|vs w]; cbn; intros N; try (split; [assumption | lia]).
  destruct (persist_item env (Spec.without vs (images_of (item w))) w) as [->|[_ ->]].
  - split; [assumption | lia].
  - cbn [images_of]. split.
    + unfold Spec.without. rewrite Forall_forall in *. intros kv I.
      apply filter_In in I as [I _]. auto.
    + rewrite logical_bytes_sum, logical_bytes_images. now apply sumSizes_filter.
Qed.

Lemma steps_sizes w w' :
  steps env w w' -> sizes_nonneg w ->
  sizes_nonneg w' /\ logical_bytes (item w') <= logical_bytes (item w).
Proof.
  induction 1 as [w|w w1 w2 S _ IH]; intros N; [split; [assumption | lia]|].
  destruct (step_sizes _ _ S N) as [N1 L1].
  destruct (IH N1) as [N2 L2]. split; [assumption | lia].
Qed.

End Budget.

(* ---------- lookups after an assignment ---------- *)

Section Assign.
Context {V : Type}.

Lemma get_prop_insert_index_other i k k' (v : V) o :
  k' <> k -> JS.get_prop k' (JS.insert_index i k v o) = JS.get_prop k' o.
Proof.
  intros Hne. induction o as [|[k0 v0] r IH]; cbn.
  - now destruct (String.eqb_spec k' k).
  - destruct (JS.array_index k0) as [j|]; [destruct (j <? i)%N|]; cbn;
      try rewrite IH; try reflexivity;
      now destruct (String.eqb_spec k' k).
Qed.

(** [o[k] = v] changes no other property. *)
Lemma get_prop_set_prop_other k k' (v : V) o :
  k' <> k -> JS.get_prop k' (JS.set_prop k v o) = JS.get_prop k' o.
Proof.
  intros Hne. unfold JS.set_prop. destruct (JS.get_prop k o) eqn:G.
  - clear G. induction o as [|[k0 x0] r IH]; cbn; [reflexivity|].
    destruct (String.eqb_spec k k0) as [->|N]; cbn.
    + destruct (String.eqb_spec k' k0); [contradiction | assumption].
    + now rewrite IH.
  - destruct (JS.array_index k).
    + now apply get_prop_insert_index_other.
    + rewrite get_prop_app. cbn. destruct (JS.get_prop k' o); [reflexivity|].
      now destruct (String.eqb_spec k' k).
Qed.

Lemma insert_index_perm i k (v : V) o :
  Permutation (JS.insert_index i k v o) ((k, v) :: o).
Proof.
  induction o as [|[k0 x0] r IH]; cbn; [reflexivity|].
  destruct (JS.array_index k0) as [j|]; [destruct (j <? i)%N|]; try reflexivity.
  rewrite IH. apply perm_swap.
Qed.

(** A property that is created joins the others. *)
Lemma set_prop_new_perm k (v : V) o :
  JS.get_prop k o = None -> Permutation (JS.set_prop k v o) ((k, v) :: o).
Proof.
  intros G. unfold JS.set_prop. rewrite G. destruct (JS.array_index k).
  - apply insert_index_perm.
  - symmetry. apply Permutation_cons_append.
Qed.

End Assign.

Section Footprint.
Variable env : Env.

(** [storeImage]: its answer, the calls it made and what it did to the
    store. *)
Lemma storeImage_effect img w :
  exists b w', ImageStorage.storeImage env img w = (Val b, w') /\
    within 6 2 (count_write w) w' /\
    ((b = false /\ steps env w w') \/
     (b = true /\ exists w0, steps env w w0 /\ Spec.attempt env img w0 = (true, w'))).
Proof.
  destruct (storeImage_cases env img w) as (b & w' & E & C).
  destruct (storeImage_within env img w) as (b' & w'' & E' & Wn).
  rewrite E in E'. injection E' as <- <-. eauto.
Qed.

Lemma performMaintenanceCleanup_effect w :
  exists w', ImageStorage.performMaintenanceCleanup env w = (Val tt, w') /\
             steps env w w' /\ within 3 2 w w'.
Proof.
  destruct (performMaintenanceCleanup_steps env w) as (w' & E & S & _).
  destruct (performMaintenanceCleanup_within env w) as (w'' & E' & Wn).
  rewrite E in E'. injection E' as <-. eauto.
Qed.

Lemma steps_absent url w w' :
  steps env w w' -> cached url w = None -> cached url w' = None.
Proof. intros S. apply (steps_shrunk env w w' S). Qed.

End Footprint.

(* ===================================================================== *)
(** ** The store as a user of the class sees it *)
(* ===================================================================== *)

(** X1.  A first write that fails with an error other than
    [QuotaExceededError] ends [storeImage] at once: it answers [false]
    after that single call of [setItem], without any eviction, and the
    stored text is as before. *)
Theorem storeImage_other_error (env : Env) (img : LocalImageData) (w : World) :
  medium env (writes w)
    (Stringified (JS.set_prop (originalUrl img) img (images_of (item w))))
  = Refused ->
  ImageStorage.storeImage env img w = (Val false, count_write w).
Proof.
  intros E. unfold ImageStorage.storeImage, try.
  rewrite writeWith_run. cbv zeta. now rewrite E.
Qed.

Lemma storeImage_other_error_witness :
  ImageStorage.storeImage Sample.locked (snd Sample.A) (Sample.holding [Sample.B])
  = (Val false, count_write (Sample.holding [Sample.B])).
Proof. apply storeImage_other_error. reflexivity. Defined.




(** X4.  [downloadAndStoreImage] keeps the store within its budget: when
    the sizes of the stored entries are non-negative and add up to at most
    [MAX_STORAGE_SIZE] (50 MiB), they still do after the call, whatever the
    network, the reader and the medium answer. *)
Theorem resolve_keeps_budget (env : Env) (url : string) (w : World) :
  sizes_nonneg w ->
  logical_bytes (item w) <= ImageStorage.MAX_STORAGE_SIZE ->
  let w' := snd (ImageStorage.downloadAndStoreImage env url w) in
  sizes_nonneg w' /\
  exists total, ImageStorage.getCurrentStorageSize w' = (Val total, w') /\
                total <= ImageStorage.MAX_STORAGE_SIZE.
Proof.
  intros N L w'.
  enough (sizes_nonneg w' /\ logical_bytes (item w') <= ImageStorage.MAX_STORAGE_SIZE)
    as [N' L'].
  { split; [assumption|]. exists (logical_bytes (item w')).
    now rewrite getCurrentStorageSize_run. }
  subst w'. destruct (cached url w) as [e|] eqn:C.
  { rewrite (resolve_hit env url e w C). auto. }
  rewrite (resolve_miss env url w C). cbv zeta.
  destruct (performMaintenanceCleanup_steps env w) as (w1 & -> & S1 & _). cbn [snd].
  destruct (steps_sizes env w w1 S1 N) as [N1 L1].
  destruct (download_cases env url w1)
    as [(r & blob & dataUrl & _ & _ & _ & B & _ & ->)|[->| ->]];
    cbn [snd item count_fetch count_read]; try (split; [assumption | lia]).
  set (img := {| originalUrl := url; localDataUrl := dataUrl |}).
  set (w2 := count_tick (count_read (count_fetch url w1))).
  assert (N2 : sizes_nonneg w2) by exact N1.
  destruct (storeImage_cases env img w2) as (b & w3 & -> & [[_ S]|[_ (w0 & S & A)]]);
    cbn [snd]; destruct (steps_sizes env _ _ S N2) as [N3 L3].
  - split; [assumption|]. change (item w2) with (item w1) in L3. lia.
  - apply attempt_true in A as [_ ->].
    assert (G : JS.get_prop url (images_of (item w0)) = None).
    { apply (steps_absent env url w2 w0 S). apply (steps_absent env url w w1 S1 C). }
    change (originalUrl img) with url.
    assert (Sz : 0 <= size img) by (cbn; unfold blob_size, JS.byteLength; lia).
    split.
    + unfold sizes_nonneg. cbn [item with_item images_of].
      eapply Permutation_Forall; [symmetry; apply set_prop_new_perm, G|].
      constructor; assumption.
    + cbn [item with_item]. rewrite logical_bytes_sum.
      rewrite sumSizes_set_prop_new by assumption.
      rewrite <- logical_bytes_images. change (item w2) with (item w1) in L3.
      change (size img) with (blob_size blob). lia.
Qed.

Lemma resolve_keeps_budget_witness :
  let w' := snd (ImageStorage.downloadAndStoreImage Sample.online Sample.url
                   (Sample.holding [Sample.A; Sample.B; Sample.C])) in
  sizes_nonneg w' /\
  exists total, ImageStorage.getCurrentStorageSize w' = (Val total, w') /\
                total <= ImageStorage.MAX_STORAGE_SIZE.
Proof.
  apply (resolve_keeps_budget Sample.online Sample.url
           (Sample.holding [Sample.A; Sample.B; Sample.C])).
  - unfold sizes_nonneg. cbn. repeat constructor; cbn; lia.
  - vm_compute. discriminate.
Defined.

(** X5.  The footprint of [downloadAndStoreImage]: at most one fetch, of
    the URL it was given, and at most one use of the reader; at most ten
    calls of [setItem] and five readings of the clock; no entry appears
    under any other URL, and the keys stay pairwise different. *)
Theorem resolve_footprint (env : Env) (url : string) (w : World) :
  let w' := snd (ImageStorage.downloadAndStoreImage env url w) in
  (fetched w' = fetched w \/ fetched w' = url :: fetched w) /\
  (reads w <= reads w' <= S (reads w))%nat /\
  (writes w <= writes w' <= writes w + 10)%nat /\
  (ticks w <= ticks w' <= ticks w + 5)%nat /\
  (forall u, u <> url -> cached u w = None -> cached u w' = None) /\
  (well_formed w -> well_formed w').
Proof.
  intros w'. subst w'. destruct (cached url w) as [e|] eqn:C.
  { rewrite (resolve_hit env url e w C). cbn [snd].
    repeat split; auto; lia. }
  rewrite (resolve_miss env url w C). cbv zeta.
  destruct (performMaintenanceCleanup_effect env w)
    as (w1 & -> & S1 & (F1 & R1 & W1 & T1)). cbn [snd].
  pose proof (steps_well_formed env w w1 S1) as WF1.
  assert (A1 : forall u, cached u w = None -> cached u w1 = None)
    by (intros u; apply (steps_absent env u w w1 S1)).
  destruct (download_cases env url w1)
    as [(r & blob & dataUrl & _ & _ & _ & _ & _ & ->)|[->| ->]];
    cbn [snd];
    try (cbn [fetched reads writes ticks count_fetch count_read];
         rewrite F1, R1; split; [right; reflexivity|];
         split; [lia|]; split; [lia|]; split; [lia|];
         split; [intros u _; exact (A1 u) | exact WF1]).
  set (img := {| originalUrl := url; localDataUrl := dataUrl |}).
  set (w2 := count_tick (count_read (count_fetch url w1))).
  destruct (storeImage_effect env img w2)
    as (b & w3 & -> & (F3 & R3 & W3 & T3) & Cs). cbn [snd].
  cbn in F3, R3, W3, T3. rewrite F3, R3, F1, R1.
  split; [auto|]. split; [lia|]. split; [lia|]. split; [lia|].
  destruct Cs as [[_ S]|[_ (w0 & S & A)]].
  - split.
    + intros u _ H. apply (steps_absent env u w2 w3 S). exact (A1 u H).
    + intros WF. apply (steps_well_formed env w2 w3 S). exact (WF1 WF).
  - apply attempt_true in A as [_ ->]. change (originalUrl img) with url. split.
    + intros u Hne H. unfold cached. cbn [item with_item images_of].
      rewrite get_prop_set_prop_other by assumption.
      apply (steps_absent env u w2 w0 S). exact (A1 u H).
    + intros WF. unfold well_formed. cbn [item with_item images_of].
      apply distinct_NoDup, NoDup_keys_set_prop, distinct_NoDup.
      apply (steps_well_formed env w2 w0 S). exact (WF1 WF).
Qed.

(** X6.  [downloadImageAsDataUrl] fetches once and never writes to the
    store.  It answers [null] without using the reader, or an entry for
    the URL whose size fits the budget and whose content type is not
    empty; it raises only when the reader fails, an error that its own
    [catch] does not see. *)
Theorem downloadImageAsDataUrl_outcomes (env : Env) (url : string) (w : World) :
  let run := ImageStorage.downloadImageAsDataUrl env url w in
  item (snd run) = item w /\ writes (snd run) = writes w /\
  fetched (snd run) = url :: fetched w /\
  match fst run with
  | Val None => reads (snd run) = reads w
  | Val (Some img) =>
      originalUrl img = url /\ contentType img <> EmptyString /\
      0 <= size img /\
      logical_bytes (item w) + size img <= ImageStorage.MAX_STORAGE_SIZE /\
      downloadedAt img = clock env (ticks w) /\
      reads (snd run) = S (reads w)
  | Raise e =>
      e = ReadError /\
      exists r blob,
        network env (List.length (fetched w)) url = Responded r /\
        ok r = true /\ body r = Some blob /\ fileReader env blob = ReadFailed
  end.
Proof.
  intros run. subst run.
  rewrite downloadImageAsDataUrl_run, fetchBlob_run. cbn [fst].
  destruct (network env _ url) as [|r] eqn:N; [cbn; auto|].
  destruct (ok r) eqn:O; cbn [negb]; [|cbn; auto].
  destruct (body r) as [blob|] eqn:B; [|cbn; auto].
  destruct (Z.gtb_spec (logical_bytes (item w) + blob_size blob)
                       ImageStorage.MAX_STORAGE_SIZE) as [G|G]; [cbn; auto|].
  destruct (fileReader env blob) as [|dataUrl] eqn:R; cbn.
  - do 4 (split; [reflexivity|]). exists r, blob. auto.
  - repeat split; auto.
    + destruct (blob_type blob); cbn; discriminate.
    + unfold blob_size, JS.byteLength. lia.
Qed.

(* ---------- evictions at rest and at work ---------- *)

Lemma evictOlderThan_leb now maxAge (m : Images) :
  Spec.evictOlderThan now maxAge m =
  filter (fun kv => now - downloadedAt (snd kv) <=? maxAge) m.
Proof.
  unfold Spec.evictOlderThan, Spec.olderThan. apply filter_ext. intros kv.
  rewrite Z.gtb_ltb, Z.leb_antisym. reflexivity.
Qed.

(** X7.  [cleanupOldImages] is a filter on the age of the entries: it
    reads the clock once and keeps, in their order, exactly the entries
    whose age is at most [maxAge] (an entry of that very age stays).  It
    calls [setItem] only when an entry goes, and a write that the medium
    does not take is passed over in silence. *)
Theorem cleanupOldImages_keeps_recent (env : Env) (maxAge : Z) (w : World) :
  well_formed w ->
  let now := clock env (ticks w) in
  let recent kv := now - downloadedAt (snd kv) <=? maxAge in
  let m := images_of (item w) in
  ImageStorage.cleanupOldImages env maxAge w =
  (Val tt,
   if forallb recent m then count_tick w
   else match medium env (writes w) (Stringified (filter recent m)) with
        | Written =>
            with_item (Some (Stringified (filter recent m)))
                      (count_write (count_tick w))
        | _ => count_write (count_tick w)
        end).
Proof.
  intros WF now recent m.
  rewrite (cleanupOldImages_evictStep env maxAge w WF).
  unfold Spec.evictStep. cbn [item count_tick]. fold m. fold now.
  rewrite evictOlderThan_leb. fold recent.
  rewrite filter_length_lt. destruct (forallb recent m); cbn [negb]; [reflexivity|].
  unfold Spec.persist. cbn [writes count_tick]. reflexivity.
Qed.

Lemma cleanupOldImages_keeps_recent_witness :
  ImageStorage.cleanupOldImages Sample.online (3 * DAY)
    (Sample.holding [Sample.A; Sample.B; Sample.entry Sample.url 7 (3 * DAY)])
  = (Val tt,
     {| item := Some (Stringified [Sample.A; Sample.entry Sample.url 7 (3 * DAY)]);
        fetched := []; reads := 0; writes := 1; ticks := 1 |}).
Proof.
  apply (cleanupOldImages_keeps_recent Sample.online (3 * DAY)
           (Sample.holding [Sample.A; Sample.B; Sample.entry Sample.url 7 (3 * DAY)])).
  reflexivity.
Defined.

(** X8.  [freeUpSpace] leaves the world alone when its target is zero or
    negative or the store is empty.  Otherwise it calls [setItem] once,
    and when the medium takes that write the store has lost at least one
    entry: the first in the order of eviction, which no entry exceeds in
    size. *)
Theorem freeUpSpace_idle_or_evicting (env : Env) (target : Q) (w : World) :
  let m := images_of (item w) in
  let w' := snd (ImageStorage.freeUpSpace env target w) in
  ((target <= 0)%Q \/ m = [] -> w' = w) /\
  ((0 < target)%Q -> m <> [] ->
   exists v vs,
     JS.sort ImageStorage.bySizeThenAge (JS.entries m) = v :: vs /\
     (forall kv, In kv m -> size (snd kv) <= size (snd v)) /\
     writes w' = S (writes w) /\
     ((forall text, medium env (writes w) text = Written) ->
      JS.get_prop (fst v) (images_of (item w')) = None /\
      (List.length (images_of (item w')) < List.length m)%nat)).
Proof.
  intros m w'. subst w'. rewrite freeUpSpace_run. cbv zeta. fold m. cbn [snd].
  split.
  - intros [T|E].
    + unfold Spec.victims. destruct (JS.sort _ _) as [|kv r]; [reflexivity|].
      cbn [Spec.minimalPrefix]. change (inject_Z 0) with 0%Q.
      apply Qle_bool_iff in T. now rewrite T.
    + rewrite E. reflexivity.
  - intros T Hm. unfold Spec.victims.
    destruct (JS.sort ImageStorage.bySizeThenAge (JS.entries m)) as [|v vs] eqn:E.
    { exfalso. apply Hm. apply Permutation_nil.
      rewrite <- E. apply (sort_perm ImageStorage.bySizeThenAge). }
    exists v, vs. split; [reflexivity|].
    assert (I : In v m /\ forall kv, In kv m -> size (snd kv) <= size (snd v)).
    { pose proof (sort_perm ImageStorage.bySizeThenAge m) as P.
      pose proof (eviction_order_sorted m) as S.
      unfold JS.entries in E. rewrite E in P, S. split.
      - eapply Permutation_in; [exact P | now left].
      - intros kv K. apply (Permutation_in _ (Permutation_sym P)) in K.
        inversion S as [|? ? _ F]; subst. destruct K as [<-|K]; [lia|].
        rewrite Forall_forall in F. specialize (F kv K).
        unfold Spec.evictsBefore in F. lia. }
    destruct I as [I Big]. split; [exact Big|].
    cbn [Spec.minimalPrefix].
    replace (Qle_bool target (inject_Z 0)) with false.
    2:{ symmetry. apply not_true_is_false. intros L. apply Qle_bool_iff in L.
        apply (Qlt_not_le _ _ T L). }
    set (rest := Spec.minimalPrefix target vs (0 + size (snd v))).
    destruct (persist_frame env (Spec.without (v :: rest) m) w) as (_ & _ & _ & W).
    split; [exact W|]. intros Wr. unfold Spec.persist. rewrite Wr.
    cbn [item with_item images_of]. split.
    + apply get_prop_None. unfold JS.keys. intros J.
      apply in_map_iff in J as (kv & K & J). apply without_In in J as [_ J].
      apply J. rewrite K. now left.
    + unfold Spec.without. apply Nat.ltb_lt. rewrite filter_length_lt.
      apply negb_true_iff, not_true_is_false. intros F.
      rewrite forallb_forall in F.
      specialize (F v I). cbn in F. now rewrite String.eqb_refl in F.
Qed.


(* ---------- statistics ---------- *)

Lemma sorted_head_least (l : list LocalImageData) x :
  StronglySorted (fun a b => ImageStorage.byDownloadedAt a b <= 0) l ->
  hd_error l = Some x ->
  forall y, In y l -> downloadedAt x <= downloadedAt y.
Proof.
  intros S H y I. destruct l as [|a r]; [discriminate|]. injection H as ->.
  inversion S as [|? ? _ F]; subst. destruct I as [<-|I]; [lia|].
  rewrite Forall_forall in F. specialize (F y I).
  unfold ImageStorage.byDownloadedAt in F. lia.
Qed.

Lemma sorted_last_greatest (l : list LocalImageData) z :
  StronglySorted (fun a b => ImageStorage.byDownloadedAt a b <= 0) l ->
  last (map Some l) None = Some z ->
  In z l /\ forall y, In y l -> downloadedAt y <= downloadedAt z.
Proof.
  induction 1 as [|a r S IH F]; [discriminate|].
  destruct r as [|b r'].
  - cbn. intros [= ->]. split; [now left|]. intros y [<-|[]]. lia.
  - intros L. change (last (map Some (b :: r')) None = Some z) in L.
    destruct (IH L) as [I G]. split; [now right|].
    intros y [<-|K]; [|now apply G].
    rewrite Forall_forall in F. specialize (F z I).
    unfold ImageStorage.byDownloadedAt in F. lia.
Qed.

Lemma byDownloadedAt_sorted (l : list LocalImageData) :
  StronglySorted (fun a b => ImageStorage.byDownloadedAt a b <= 0)
                 (JS.sort ImageStorage.byDownloadedAt l).
Proof.
  apply sort_sorted; unfold ImageStorage.byDownloadedAt; intros; lia.
Qed.

(** X9.  The figures of [getStorageStats] that are read off the map:
    [imageCount] is the number of entries and [totalSize] the sum of their
    sizes, the number [getCurrentStorageSize] returns; [oldestImage] and
    [newestImage] are the least and the greatest [downloadedAt] among the
    entries, and [null] exactly when there is no entry. *)
Theorem getStorageStats_figures (w : World) :
  exists st,
    ImageStorage.getStorageStats w = (Val st, w) /\
    ImageStorage.imageCount st = Z.of_nat (List.length (images_of (item w))) /\
    ImageStorage.getCurrentStorageSize w = (Val (ImageStorage.totalSize st), w) /\
    match images_of (item w) with
    | [] => ImageStorage.oldestImage st = None /\
            ImageStorage.newestImage st = None
    | _ :: _ =>
        exists lo hi,
          ImageStorage.oldestImage st = Some lo /\
          ImageStorage.newestImage st = Some hi /\
          In lo (map downloadedAt (JS.values (images_of (item w)))) /\
          In hi (map downloadedAt (JS.values (images_of (item w)))) /\
          forall kv, In kv (images_of (item w)) ->
                     lo <= downloadedAt (snd kv) <= hi
    end.
Proof.
  rewrite getStorageStats_run. eexists. split; [reflexivity|]. cbv zeta.
  cbn [ImageStorage.imageCount ImageStorage.totalSize ImageStorage.oldestImage
       ImageStorage.newestImage].
  split; [unfold JS.values; now rewrite length_map|].
  split; [apply getCurrentStorageSize_run|].
  set (m := images_of (item w)).
  set (sorted := JS.sort ImageStorage.byDownloadedAt (JS.values m)).
  pose proof (byDownloadedAt_sorted (JS.values m)) as S. fold sorted in S.
  pose proof (sort_perm ImageStorage.byDownloadedAt (JS.values m)) as P.
  fold sorted in P.
  destruct m as [|kv0 r] eqn:Em; [cbn; auto|].
  destruct sorted as [|a s] eqn:Es.
  { apply Permutation_nil in P. discriminate. }
  destruct (last (map Some (a :: s)) None) as [z|] eqn:L.
  2:{ exfalso. clear - L. revert a L. induction s as [|b s IH]; intros a L;
        [discriminate | exact (IH b L)]. }
  destruct (sorted_last_greatest (a :: s) z S L) as [Iz Gz].
  exists (downloadedAt a), (downloadedAt z). cbn [hd_error option_map].
  repeat split.
  - apply in_map. eapply Permutation_in; [exact P | now left].
  - apply in_map. eapply Permutation_in; [exact P | exact Iz].
  - apply (sorted_head_least (a :: s) a S eq_refl).
    apply (Permutation_in _ (Permutation_sym P)). unfold JS.values. now apply in_map.
  - apply Gz.
    apply (Permutation_in _ (Permutation_sym P)). unfold JS.values. now apply in_map.
Qed.

(** X10.  The bytes of the stored text are at least the bytes the entries
    account for: when no entry states a size above the length of its
    embedded data, [getCurrentStorageSize] does not exceed
    [getActualStorageSize]. *)
Theorem actual_size_dominates (w : World) :
  genuine w ->
  exists total actual,
    ImageStorage.getCurrentStorageSize w = (Val total, w) /\
    ImageStorage.getActualStorageSize w = (Val actual, w) /\
    total <= actual.
Proof.
  intros G. rewrite getCurrentStorageSize_run, getActualStorageSize_run.
  do 2 eexists. do 2 (split; [reflexivity|]).
  unfold genuine in G.
  destruct (item w) as [[m|raw]|]; cbn [images_of] in *.
  - rewrite logical_bytes_sum.
    pose proof (text_bytes_filter (fun _ => false) m) as B.
    cbv beta in B.
    assert (F0 : filter (fun _ : string * LocalImageData => false) m = [])
      by (clear; induction m; cbn; auto).
    assert (F1 : filter (fun _ : string * LocalImageData => negb false) m = m)
      by (clear; induction m as [|x r IH]; cbn; [reflexivity | now f_equal]).
    rewrite F0, F1 in B.
    pose proof (bytes_of_nonneg (Some (Stringified []))) as Z0.
    enough (Spec.sumSizes m <=
            Z.of_nat (list_sum (map (fun kv => String.length (stringify_entry kv)) m)))
      by lia.
    clear B Z0 F0 F1. unfold Spec.sumSizes, list_sum.
    induction G as [|kv r H _ IH]; cbn [map fold_right]; [lia|].
    pose proof (stringify_entry_length kv) as E.
    unfold JS.byteLength in H. lia.
  - unfold logical_bytes. cbn. unfold JS.byteLength. lia.
  - cbn. lia.
Qed.

Lemma actual_size_dominates_witness :
  exists total actual,
    ImageStorage.getCurrentStorageSize (Sample.holding [Sample.A; Sample.B])
    = (Val total, Sample.holding [Sample.A; Sample.B]) /\
    ImageStorage.getActualStorageSize (Sample.holding [Sample.A; Sample.B])
    = (Val actual, Sample.holding [Sample.A; Sample.B]) /\
    total <= actual.
Proof.
  apply actual_size_dominates.
  unfold genuine. cbn. repeat constructor; cbn; discriminate.
Defined.

(** The reader fails: the rejection passes [downloadImageAsDataUrl], and
    [downloadAndStoreImage] turns it into the URL. *)
Example download_reader_fails :
  fst (ImageStorage.downloadImageAsDataUrl Sample.unreadable Sample.url Sample.fresh)
  = Raise ReadError /\
  fst (ImageStorage.downloadAndStoreImage Sample.unreadable Sample.url Sample.fresh)
  = Val Sample.url.
Proof. split; reflexivity. Qed.

(** The longest run of [storeImage]: seven calls of [setItem] on a
    medium that is full, two readings of the clock. *)
Example storeImage_longest_run :
  ImageStorage.storeImage Sample.full (snd (Sample.entry Sample.url 3 0))
    (Sample.holding [Sample.A; Sample.B; Sample.C])
  = (Val false,
     {| item := Some (Stringified [Sample.A; Sample.B; Sample.C]);
        fetched := []; reads := 0; writes := 7; ticks := 2 |}).
Proof. vm_compute. reflexivity. Qed.

(* ===================================================================== *)
(** ** The model context *)
(* ===================================================================== *)

Section Includes.
Import ModelContext.

Lemma prefix_app (t s : string) :
  String.prefix t s = true <-> exists b, s = (t ++ b)%string.
Proof.
  revert s. induction t as [|c t IH]; intros s.
  - split; [intros _; now exists s | intros _; now destruct s].
  - destruct s as [|d s]; cbn; [split; [discriminate | intros [b [=]]]|].
    destruct (Ascii.ascii_dec c d) as [->|N].
    + rewrite IH. split; intros [b E]; exists b; [now rewrite E | now injection E].
    + split; [discriminate | intros [b [= E _]]; congruence].
Qed.

(** [includes] finds the occurrences of [t] in [s]. *)
Lemma includes_spec (s t : string) :
  includes s t = true <-> exists a b, s = (a ++ t ++ b)%string.
Proof.
  induction s as [|c s IH]; cbn [includes]; rewrite orb_true_iff, prefix_app.
  - split.
    + intros [[b E]|F]; [now exists EmptyString, b | discriminate].
    + intros ([|c a] & b & E); [left; now exists b | discriminate].
  - rewrite IH. split.
    + intros [[b E]|(a & b & E)]; [now exists EmptyString, b|].
      exists (String c a), b. cbn. now rewrite E.
    + intros ([|d a] & b & E); [left; now exists b|].
      right. injection E as _ E. now exists a, b.
Qed.

Lemma isImageUrlField_includes (input : ModelInput) :
  isImageUrlField input = includes (name input) "image_url".
Proof.
  unfold isImageUrlField.
  destruct (String.eqb_spec (name input) "image_url") as [->|_]; [reflexivity|].
  destruct (String.eqb_spec (name input) "image_urls") as [->|_]; reflexivity.
Qed.

End Includes.

(** X11.  The three functions of the model context agree on the image URL
    field.  The test they share amounts to the name containing
    ["image_url"]; [hasImageUrlFields] answers [true] exactly when
    [getImageUrlFieldName] answers a name, which is then the name of the
    first input that passes the test; and [pasteImageUrl] dispatches one
    event, for that field, in exactly that case, and none otherwise. *)
Theorem image_url_field_agreement
        (currentModel : option ModelContext.Model) (imageUrl : string) :
  (ModelContext.hasImageUrlFields currentModel = true <->
   exists n, ModelContext.getImageUrlFieldName currentModel = Some n) /\
  (forall n,
     ModelContext.getImageUrlFieldName currentModel = Some n ->
     exists model before field after,
       currentModel = Some model /\
       ModelContext.inputs model = before ++ field :: after /\
       ModelContext.name field = n /\
       (exists a b, n = a ++ "image_url" ++ b)%string /\
       Forall (fun input =>
                 ~ exists a b, ModelContext.name input = (a ++ "image_url" ++ b)%string)
              before) /\
  ModelContext.pasteImageUrl currentModel imageUrl =
  match ModelContext.getImageUrlFieldName currentModel with
  | Some n => [{| ModelContext.event_type := "pasteImageUrl";
                  ModelContext.fieldName := n;
                  ModelContext.imageUrl := imageUrl |}]
  | None => []
  end.
Proof.
  assert (T : forall f, ModelContext.isImageUrlField f = true ->
                        JS.truthy (ModelContext.name f) = true).
  { intros f. rewrite isImageUrlField_includes.
    destruct (ModelContext.name f); [discriminate | reflexivity]. }
  destruct currentModel as [model|]; cbn.
  2:{ split; [split; [discriminate | intros [n [=]]]|]. split; [discriminate | reflexivity]. }
  destruct (find ModelContext.isImageUrlField (ModelContext.inputs model))
    as [f|] eqn:F.
  - pose proof (find_some _ _ F) as [I P]. rewrite (T f P).
    split; [|split; [|reflexivity]].
    + split; [eauto|]. intros _. apply existsb_exists. eauto.
    + intros n [= <-]. clear I.
      assert (exists before after,
                ModelContext.inputs model = before ++ f :: after /\
                Forall (fun g => ModelContext.isImageUrlField g = false) before)
        as (before & after & E & B).
      { revert F. generalize (ModelContext.inputs model). intros l.
        induction l as [|g l IH]; cbn; [discriminate|].
        destruct (ModelContext.isImageUrlField g) eqn:G.
        - intros [= ->]. now exists [], l.
        - intros F. destruct (IH F) as (before & after & -> & B).
          exists (g :: before), after. split; [reflexivity | now constructor]. }
      exists model, before, f, after. repeat split; auto.
      * apply (proj1 (includes_spec (ModelContext.name f) "image_url")).
        now rewrite <- isImageUrlField_includes.
      * eapply Forall_impl; [|exact B]. intros g G H.
        apply (proj2 (includes_spec (ModelContext.name g) "image_url")) in H.
        rewrite <- isImageUrlField_includes in H. congruence.
  - split; [|split; [discriminate | reflexivity]].
    split; [|intros [n [=]]]. intros E. apply existsb_exists in E as (f & I & P).
    now rewrite (find_none _ _ F f I) in P.
Qed.

(* ===================================================================== *)
(** ** The generations, run *)
(* ===================================================================== *)

Ltac run_st := unfold St.try, St.bind, St.ret, St.raise.

Section Generations.
Import LocalStorage.
Variable browser : Browser.

Lemma getGenerations_run p :
  getGenerations browser p = (Val (stored browser p), p).
Proof.
  unfold getGenerations, getFromStorage, stored.
  destruct (window_defined browser); cbn [negb]; [|reflexivity].
  unfold getItem. run_st.
  destruct (generations_item p) as [[l|raw]|]; cbn; try reflexivity.
  destruct raw; reflexivity.
Qed.

Lemma setToStorage_run value p :
  setToStorage browser value p =
  (Val tt, if window_defined browser then saved browser value p else p).
Proof.
  unfold setToStorage, saved.
  destruct (window_defined browser); cbn [negb]; [|reflexivity].
  unfold setItem. run_st.
  now destruct (generations_medium browser _ value).
Qed.

Lemma stored_saved value p :
  window_defined browser = true ->
  stored browser (saved browser value p) =
  match generations_medium browser (writes (world p)) value with
  | Written => value
  | _ => stored browser p
  end.
Proof.
  intros W. unfold stored, saved. rewrite W. cbn.
  now destruct (generations_medium browser _ value).
Qed.




End Generations.

(* ===================================================================== *)
(** ** The generations: add, update, delete *)
(* ===================================================================== *)


Section Update.
Import LocalStorage.


(** The first element that passes the test, and where it is. *)
Lemma findIndex_first {A} (p : A -> bool) before x after :
  Forall (fun y => p y = false) before -> p x = true ->
  findIndex p (before ++ x :: after) = Some (List.length before) /\
  nth_error (before ++ x :: after) (List.length before) = Some x /\
  forall v, setAt (List.length before) v (before ++ x :: after) = before ++ v :: after.
Proof.
  intros F P. induction F as [|y r Py _ IH]; cbn.
  - rewrite P. auto.
  - rewrite Py. destruct IH as (-> & -> & S). cbn. repeat split.
    intros v. now rewrite S.
Qed.

Lemma updateGeneration_found browser id' updates p before found after :
  stored browser p = before ++ found :: after ->
  Forall (fun gen => id gen <> id') before ->
  id found = id' ->
  updateGeneration browser id' updates p =
  (Val tt,
   saved browser
     (before ++
      spread found updates
        (JS.toISOString (clock (platform browser) (ticks (world p)))) :: after)
     (ticked p)).
Proof.
  intros E B I.
  assert (W : window_defined browser = true).
  { unfold stored in E. destruct (window_defined browser);
      [reflexivity | now destruct before]. }
  unfold updateGeneration, St.bind.
  rewrite getGenerations_run, E.
  destruct (findIndex_first (fun gen => (id gen =? id')%string)
              before found after) as (-> & -> & S).
  { eapply Forall_impl; [|exact B]. intros g. apply String.eqb_neq. }
  { now apply String.eqb_eq. }
  unfold lift, Date_now. cbn.
  rewrite setToStorage_run, W, S. reflexivity.
Qed.

End Update.

(** X13.  [updateGeneration] changes the first generation whose [id] is the
    one given, and only that one: with the medium taking the write, the
    list read afterwards has the same generations at the same places,
    except that this one has received the properties of [updates], and
    [updated_at] is the time of the call whatever [updates] says.  The
    clock is read once and [setItem] called once. *)
Theorem updateGeneration_first_match
        (browser : LocalStorage.Browser) (id' : string)
        (updates : LocalStorage.Updates) (p : LocalStorage.Page)
        (before after : list LocalStorage.Generation)
        (found : LocalStorage.Generation) :
  stored browser p = before ++ found :: after ->
  Forall (fun gen => LocalStorage.id gen <> id') before ->
  LocalStorage.id found = id' ->
  let now := JS.toISOString
               (clock (LocalStorage.platform browser)
                      (ticks (LocalStorage.world p))) in
  let updated := before ++ LocalStorage.spread found updates now :: after in
  LocalStorage.updateGeneration browser id' updates p
  = (Val tt, saved browser updated (ticked p)) /\
  LocalStorage.updated_at (LocalStorage.spread found updates now) = now /\
  (LocalStorage.generations_medium browser (writes (LocalStorage.world p)) updated
   = Written ->
   stored browser (saved browser updated (ticked p)) = updated).
Proof.
  intros E B I now updated.
  assert (W : LocalStorage.window_defined browser = true).
  { unfold stored in E. destruct (LocalStorage.window_defined browser);
      [reflexivity | now destruct before]. }
  split; [|split; [reflexivity|]].
  - now apply updateGeneration_found.
  - intros Wr. rewrite stored_saved by assumption.
    cbn [LocalStorage.world ticked writes count_tick]. now rewrite Wr.
Qed.

Lemma updateGeneration_first_match_witness :
  LocalStorage.updateGeneration SamplePage.chrome "g2"
    (LocalStorage.whole SamplePage.g3)
    (SamplePage.keeping [SamplePage.g1; SamplePage.g2; SamplePage.generation "g2" None])
  = (Val tt,
     saved SamplePage.chrome
       [SamplePage.g1;
        LocalStorage.spread SamplePage.g2 (LocalStorage.whole SamplePage.g3)
          "2024-11-03T10:00:00.000Z";
        SamplePage.generation "g2" None]
       (ticked (SamplePage.keeping
                  [SamplePage.g1; SamplePage.g2; SamplePage.generation "g2" None]))).
Proof.
  apply (updateGeneration_first_match SamplePage.chrome "g2"
           (LocalStorage.whole SamplePage.g3) _ [SamplePage.g1]
           [SamplePage.generation "g2" None] SamplePage.g2).
  - reflexivity.
  - repeat constructor. discriminate.
  - reflexivity.
Defined.



(* ===================================================================== *)
(** ** Migration: status and counters *)
(* ===================================================================== *)

Section Counting.
Import LocalStorage Migration.








Section Loop.
Variable processGeneration : Generation -> M Generation.


End Loop.
End Counting.



(* ===================================================================== *)
(** ** Migration: cleanup *)
(* ===================================================================== *)

Section Cleanup.
Import LocalStorage Migration.







Variable browser : Browser.




End Cleanup.


(** On a medium that is full the cleanup reports the migrated image and
    leaves it in the store, where the next cleanup finds it again. *)
Example cleanup_reports_without_cleaning :
  let p := SamplePage.keeping [SamplePage.g1; SamplePage.g2; SamplePage.g3] in
  let run := Migration.cleanupMigratedImages SamplePage.chromeFull p in
  fst run = Val 1 /\
  LocalStorage.generations_item (snd run) = LocalStorage.generations_item p /\
  fst (Migration.cleanupMigratedImages SamplePage.chromeFull (snd run)) = Val 1.
Proof. vm_compute. auto. Qed.

Section Settles.
Import LocalStorage Migration.
Variable browser : Browser.
Hypothesis accepting : forall n l, generations_medium browser n l = Written.


Lemma stored_ticked p : stored browser (ticked p) = stored browser p.
Proof. reflexivity. Qed.






End Settles.





(** X20.  What [processGeneration] makes of an image with a remote URL:
    [url] becomes the string that [downloadAndStoreImage] returns,
    [originalUrl] the remote URL, the other properties are copied.  The
    image then passes exactly one of the two tests of the migration: it is
    still remote, as [getMigrationStatus] and [migrateAllGenerations]
    see it, or it is migrated, as [cleanupMigratedImages] sees it. *)
Theorem processImage_remote_or_migrated
        (env : Env) (image : ImageMigration.Image) (u : string) (w : World) :
  ImageMigration.url image = Some u ->
  ImageMigration.isRemoteUrl u = true ->
  exists localUrl w',
    ImageStorage.downloadAndStoreImage env u w = (Val localUrl, w') /\
    ImageMigration.processImage env image w
    = (Val {| ImageMigration.url := Some localUrl;
              ImageMigration.originalUrl := Some u;
              ImageMigration.others := ImageMigration.others image |}, w') /\
    forall image',
      fst (ImageMigration.processImage env image w) = Val image' ->
      Migration.isMigrated image' = negb (Migration.isRemoteImage image').
Proof.
  intros U R.
  assert (T : JS.truthy u = true) by (destruct u; [discriminate | reflexivity]).
  assert (exists localUrl w',
            ImageStorage.downloadAndStoreImage env u w = (Val localUrl, w'))
    as (localUrl & w' & D).
  { destruct (ImageStorage.downloadAndStoreImage env u w) as [[s|e] w'] eqn:D;
      [eauto|].
    exfalso. revert D. unfold ImageStorage.downloadAndStoreImage, try.
    destruct (bind _ _ w) as [[s|e'] w0]; discriminate. }
  exists localUrl, w'. split; [exact D|].
  assert (P : ImageMigration.processImage env image w
              = (Val {| ImageMigration.url := Some localUrl;
                        ImageMigration.originalUrl := Some u;
                        ImageMigration.others := ImageMigration.others image |}, w')).
  { unfold ImageMigration.processImage. rewrite U, T, R. cbn [negb orb].
    unfold bind. now rewrite D. }
  split; [exact P|]. rewrite P. cbn [fst]. intros image' [= <-].
  unfold Migration.isMigrated, Migration.isRemoteImage. cbn. rewrite T. cbn [andb].
  destruct (JS.truthy localUrl) eqn:L; cbn [andb]; [reflexivity|].
  destruct localUrl; [reflexivity | discriminate].
Qed.

Lemma processImage_remote_or_migrated_witness :
  exists localUrl w',
    ImageStorage.downloadAndStoreImage Sample.online Sample.url Sample.fresh
    = (Val localUrl, w') /\
    ImageMigration.processImage Sample.online SamplePage.remoteImage Sample.fresh
    = (Val {| ImageMigration.url := Some localUrl;
              ImageMigration.originalUrl := Some Sample.url;
              ImageMigration.others := EmptyString |}, w').
Proof.
  destruct (processImage_remote_or_migrated Sample.online SamplePage.remoteImage
              Sample.url Sample.fresh eq_refl eq_refl) as (localUrl & w' & D & P & _).
  exists localUrl, w'. split; [exact D | exact P].
Defined.

(* ===================================================================== *)
(** ** Statistics in megabytes *)
(* ===================================================================== *)

Section Megabytes.
Import F64.

(** A byte count in hundredths of a mebibyte: the digits of
    [toFixed(2)]. *)
Lemma megabytes_hundredths_nearest (a : Z) :
  0 <= a < 2 ^ 48 ->
  let n := units (toFixed 2 (div (inject_Z a) (inject_Z (1024 * 1024)))) in
  0 <= n /\ - 2 ^ 17 <= n * 2 ^ 18 - 25 * a <= 2 ^ 17.
Proof.
  intros [Ha0 Ha] n. subst n. unfold div, toFixed. cbn [units].
  destruct (Z.eq_dec a 0) as [->|Hne].
  { vm_compute. repeat split; discriminate. }
  set (A := inject_Z a).
  assert (HA : (0 < A)%Q)
    by (unfold A; change 0%Q with (inject_Z 0); rewrite <- Zlt_Qlt; lia).
  assert (HA' : (A < inject_Z (2 ^ 48))%Q) by (unfold A; now rewrite <- Zlt_Qlt).
  change (inject_Z (2 ^ 48)) with (281474976710656 # 1) in HA'.
  change (inject_Z (1024 * 1024)) with (1048576 # 1).
  assert (Q : (A / (1048576 # 1) == A * (1 # 1048576))%Q) by field.
  set (q := (A / (1048576 # 1))%Q) in *.
  assert (Hq : (0 < q)%Q) by lra.
  pose proof (fl_relative_error q Hq) as E1.
  apply Qabs_Qle_condition in E1.
  change (2 ^ 53)%positive with 9007199254740992%positive in E1.
  set (x1 := fl q) in *.
  change (inject_Z (10 ^ Z.of_nat 2)) with (100 # 1).
  assert (Hx1 : (0 <= x1)%Q) by lra.
  apply Qle_bool_iff in Hx1. rewrite Hx1.
  set (n := Qfloor (x1 * (100 # 1) + (1 # 2))).
  pose proof (Qfloor_le (x1 * (100 # 1) + (1 # 2))) as F1.
  pose proof (Qlt_floor (x1 * (100 # 1) + (1 # 2))) as F2.
  fold n in F1, F2. rewrite inject_Z_plus in F2.
  change (inject_Z 1) with (1 # 1) in F2.
  set (N := inject_Z n) in *.
  assert (G0 : (inject_Z (-1) < N)%Q) by (change (inject_Z (-1)) with (-1 # 1); lra).
  assert (G1 : (inject_Z (n * 2 ^ 18 - 25 * a - 2 ^ 17 - 1) < inject_Z 0)%Q).
  { unfold Z.sub.
    repeat (rewrite inject_Z_plus || rewrite inject_Z_opp || rewrite inject_Z_mult).
    fold N A. change (inject_Z (2 ^ 18)) with (262144 # 1).
    change (inject_Z (2 ^ 17)) with (131072 # 1).
    change (inject_Z 25) with (25 # 1). change (inject_Z 1) with (1 # 1).
    change (inject_Z 0) with (0 # 1). lra. }
  assert (G2 : (inject_Z (- 2 ^ 17 - 1) < inject_Z (n * 2 ^ 18 - 25 * a))%Q).
  { unfold Z.sub.
    repeat (rewrite inject_Z_plus || rewrite inject_Z_opp || rewrite inject_Z_mult).
    fold N A. change (inject_Z (2 ^ 18)) with (262144 # 1).
    change (inject_Z (2 ^ 17)) with (131072 # 1).
    change (inject_Z 25) with (25 # 1). change (inject_Z 1) with (1 # 1).
    lra. }
  unfold N in G0. rewrite <- Zlt_Qlt in G0, G1, G2. lia.
Qed.

(** The same, as a distance. *)
Lemma megabytes_within_half (a n : Z) :
  - 2 ^ 17 <= n * 2 ^ 18 - 25 * a <= 2 ^ 17 ->
  (Qabs (inject_Z n / 100 - inject_Z a / 1048576) <= 1 # 200)%Q.
Proof.
  intros H. apply Qabs_Qle_condition.
  assert (G1 : (inject_Z (25 * a) <= inject_Z (n * 2 ^ 18 + 2 ^ 17))%Q)
    by (rewrite <- Zle_Qle; lia).
  assert (G2 : (inject_Z (n * 2 ^ 18) <= inject_Z (25 * a + 2 ^ 17))%Q)
    by (rewrite <- Zle_Qle; lia).
  rewrite ?inject_Z_plus, ?inject_Z_mult in G1, G2.
  change (inject_Z (2 ^ 18)) with (262144 # 1) in *.
  change (inject_Z (2 ^ 17)) with (131072 # 1) in *.
  change (inject_Z 25) with (25 # 1) in *.
  set (N := inject_Z n) in *. set (A := inject_Z a) in *.
  assert (E1 : (N / 100 == N * (1 # 100))%Q) by field.
  assert (E2 : (A / 1048576 == A * (1 # 1048576))%Q) by field.
  set (X := (N / 100)%Q) in *. set (Y := (A / 1048576)%Q) in *. lra.
Qed.

End Megabytes.

(** X21.  The two figures of [getStorageStats] in megabytes are
    [toFixed(2)] of a byte count over 1024 * 1024: [totalSizeMB] of the sum
    of the sizes, [actualStorageSizeMB] of the bytes of the stored text.
    Their hundredths differ from the exact quotient by at most half a
    hundredth. *)
Theorem getStorageStats_megabytes (w : World) :
  exists st total actual,
    ImageStorage.getStorageStats w = (Val st, w) /\
    ImageStorage.totalSizeMB st
    = F64.parseFloat {| F64.places := 2; F64.units := total |} /\
    ImageStorage.actualStorageSizeMB st
    = F64.parseFloat {| F64.places := 2; F64.units := actual |} /\
    (0 <= ImageStorage.totalSize st < 2 ^ 48 ->
     (Qabs (inject_Z total / 100
            - inject_Z (ImageStorage.totalSize st) / 1048576) <= 1 # 200)%Q) /\
    (ImageStorage.actualStorageSize st < 2 ^ 48 ->
     (Qabs (inject_Z actual / 100
            - inject_Z (ImageStorage.actualStorageSize st) / 1048576) <= 1 # 200)%Q).
Proof.
  rewrite getStorageStats_run. cbv zeta.
  set (ft := F64.toFixed 2 (F64.div (inject_Z (logical_bytes (item w))) _)).
  set (fa := F64.toFixed 2 (F64.div (inject_Z (bytes_of (item w))) _)).
  eexists. exists (F64.units ft), (F64.units fa).
  split; [reflexivity|].
  cbn [ImageStorage.totalSizeMB ImageStorage.actualStorageSizeMB
       ImageStorage.totalSize ImageStorage.actualStorageSize].
  split; [reflexivity|]. split; [reflexivity|]. split.
  - intros Ht. apply megabytes_within_half.
    apply (megabytes_hundredths_nearest _ Ht).
  - intros Ha. apply megabytes_within_half.
    apply (megabytes_hundredths_nearest (bytes_of (item w))).
    split; [apply bytes_of_nonneg | assumption].
Qed.

(** 1,572,864 bytes show as 1.5; 5,243 bytes, 0.005000114 of a megabyte,
    as 0.01. *)
Example megabytes_shown :
  F64.units (F64.toFixed 2 (F64.div (inject_Z 1572864) (inject_Z (1024 * 1024)))) = 150 /\
  F64.units (F64.toFixed 2 (F64.div (inject_Z 5243) (inject_Z (1024 * 1024)))) = 1.
Proof. vm_compute. auto. Qed.

(* ===================================================================== *)
(** ** Migration: one generation *)
(* ===================================================================== *)

Section Process.
Import LocalStorage Migration.
Variable downloads : list ImageMigration.Image -> M (list ImageMigration.Image).
Variable browser : Browser.


End Process.



(** One generation with one remote image, on a page that is online: the
    image is downloaded and stored, the generation written. *)
Example processGeneration_one_image :
  let run := Migration.processGeneration (SamplePage.oneDownload Sample.online)
               SamplePage.chrome SamplePage.g1
               (SamplePage.keeping [SamplePage.g1]) in
  (exists g', fst run = Val g' /\
     Migration.imagesOf g'
     = Some [{| ImageMigration.url := Some Sample.dataUrl;
                ImageMigration.originalUrl := Some Sample.url;
                ImageMigration.others := EmptyString |}]) /\
  cached Sample.url (LocalStorage.world (snd run)) <> None /\
  fst (Migration.getMigrationStatus SamplePage.chrome (snd run))
  = Val {| Migration.totalGenerations := 1;
           Migration.remoteImageGenerations := 0;
           Migration.localImageGenerations := 1;
           Migration.noImageGenerations := 0 |}.
Proof.
  vm_compute. split; [eexists; split; reflexivity|].
  split; [discriminate | reflexivity].
Qed.
